(** * Expense tracker: the ledger engine of src/app.js

    A shallow embedding of [Utils.evalMath] and of the [Tracker] class
    (load, save, recomputeBalance, addEntry, undo, importData,
    exportData), followed by the properties of the specification.

    Conventions of the model.
    - A JavaScript string is the list of its UTF-16 code units ([str]).
    - A JavaScript number ([num]) is given by the rational it denotes, or
      is one of the two infinities, NaN and the negative zero.  The
      arithmetic operators round their exact result to binary64
      ([Num.number]).
    - A parsed JSON document and a live state object are both values of
      [jsval]; a serialized text is represented by what [JSON.parse] makes
      of it ([text]).
    - A call of the host either returns, throws, or leaves the modelled
      fragment of JavaScript ([outcome]). *)

From Stdlib Require Import String Ascii.
From Stdlib Require Import List Bool Arith ZArith NArith QArith Qround Lia Lqa.
From Stdlib Require Import Floats.
Import ListNotations.

Set Implicit Arguments.

(* ------------------------------------------------------------------ *)
(** ** Strings *)

Module Str.

Definition str := list N.

(** A Rocq string literal read as a sequence of code units. *)
Definition lit (s : string) : str :=
  map N_of_ascii (list_ascii_of_string s).

Definition eqb (a b : str) : bool :=
  if list_eq_dec N.eq_dec a b then true else false.

(** The class [\s] of a regular expression, which is also the set that
    [String.prototype.trim] strips and that the tokenizer skips:
    WhiteSpace and LineTerminator of ECMA-262. *)
Definition is_space (c : N) : bool :=
  ((9 <=? c) && (c <=? 13) || (c =? 32) || (c =? 160) || (c =? 5760)
   || (8192 <=? c) && (c <=? 8202) || (c =? 8232) || (c =? 8233)
   || (c =? 8239) || (c =? 8287) || (c =? 12288) || (c =? 65279))%N.

Definition is_line_terminator (c : N) : bool :=
  ((c =? 10) || (c =? 13) || (c =? 8232) || (c =? 8233))%N.

Definition is_digit (c : N) : bool := ((48 <=? c) && (c <=? 57))%N.

Fixpoint trim_start (s : str) : str :=
  match s with
  | c :: r => if is_space c then trim_start r else s
  | [] => []
  end.

Definition trim (s : str) : str :=
  rev (trim_start (rev (trim_start s))).

End Str.
Import Str.

(* ------------------------------------------------------------------ *)
(** ** Numbers *)

Module Num.

Inductive num : Type :=
| Fin (q : Q)      (* a finite value; [Fin 0] is the positive zero *)
| NZero            (* -0 *)
| PInf
| NInf
| NaN.

Definition is_zero (q : Q) : bool := Qeq_bool q 0.
Definition is_neg (q : Q) : bool := (Qnum q <? 0)%Z.

Definition zero (neg : bool) : num := if neg then NZero else Fin 0.
Definition inf (neg : bool) : num := if neg then NInf else PInf.

(** A finite result, kept in lowest terms. *)
Definition fin (q : Q) : num := Fin (Qred q).

(** Sign bit of a value that is not NaN. *)
Definition signbit (x : num) : bool :=
  match x with
  | Fin q => is_neg q
  | NZero | NInf => true
  | PInf | NaN => false
  end.

Definition neg (x : num) : num :=
  match x with
  | Fin q => if is_zero q then NZero else fin (- q)
  | NZero => Fin 0
  | PInf => NInf
  | NInf => PInf
  | NaN => NaN
  end.

Definition add (x y : num) : num :=
  match x, y with
  | NaN, _ | _, NaN => NaN
  | PInf, NInf | NInf, PInf => NaN
  | PInf, _ | _, PInf => PInf
  | NInf, _ | _, NInf => NInf
  | NZero, NZero => NZero
  | NZero, Fin q | Fin q, NZero => fin q
  | Fin a, Fin b => fin (a + b)
  end.

Definition sub (x y : num) : num := add x (neg y).

Inductive magnitude : Type := MZero | MFin (q : Q) | MInf | MNaN.

Definition magn (x : num) : magnitude :=
  match x with
  | Fin q => if is_zero q then MZero else MFin q
  | NZero => MZero
  | PInf | NInf => MInf
  | NaN => MNaN
  end.

Definition mul (x y : num) : num :=
  let s := xorb (signbit x) (signbit y) in
  match magn x, magn y with
  | MNaN, _ | _, MNaN => NaN
  | MInf, MZero | MZero, MInf => NaN
  | MInf, _ | _, MInf => inf s
  | MZero, _ | _, MZero => zero s
  | MFin a, MFin b => fin (a * b)
  end.

Definition div (x y : num) : num :=
  let s := xorb (signbit x) (signbit y) in
  match magn x, magn y with
  | MNaN, _ | _, MNaN => NaN
  | MInf, MInf | MZero, MZero => NaN
  | MInf, _ | _, MZero => inf s
  | MZero, _ | _, MInf => zero s
  | MFin a, MFin b => fin (a / b)
  end.

(** [Math.round]: the nearest integer, a tie going towards +infinity;
    a result that is zero keeps the sign of the argument. *)
Definition round (x : num) : num :=
  match x with
  | Fin q =>
      let r := Qfloor (q + (1 # 2)) in
      if (r =? 0)%Z then zero (is_neg q) else Fin (inject_Z r)
  | _ => x
  end.

Definition hundred : num := Fin 100.

(** *** binary64

    [add], [sub], [mul] and [div] above give the exact result of an
    operation.  The operators of JavaScript give the Number value for
    that result: the binary64 value nearest to it, a tie going to the
    even mantissa, a result beyond the range becoming an infinity and one
    below half the least subnormal a zero of its sign. *)

(** [floor (log2 (n / d))] for positive [n] and [d]. *)
Definition ilog2 (n d : Z) : Z :=
  let k := (Z.log2 n - Z.log2 d)%Z in
  let ge := if (0 <=? k)%Z then (d * 2 ^ k <=? n)%Z
            else (d <=? n * 2 ^ (- k))%Z in
  if ge then k else (k - 1)%Z.

(** The integer nearest to [n / d], a tie going to the even one. *)
Definition half_even (n d : Z) : Z :=
  let q := (n / d)%Z in
  match (2 * (n mod d) ?= d)%Z with
  | Lt => q
  | Gt => (q + 1)%Z
  | Eq => if Z.even q then q else (q + 1)%Z
  end.

(** The binary64 value [m * 2 ^ e] nearest to [n / d] (positive [n], [d]):
    53 bits of mantissa, exponent at least -1074; [None] on overflow. *)
Definition nearest (n d : Z) : option (Z * Z) :=
  let e := Z.max (ilog2 n d - 52) (-1074) in
  let m := if (0 <=? e)%Z then half_even n (d * 2 ^ e)
           else half_even (n * 2 ^ (- e)) d in
  if (971 <? e)%Z || ((e =? 971)%Z && (m =? 2 ^ 53)%Z) then None
  else Some (m, e).

Definition dyadic (m e : Z) : Q :=
  if (0 <=? e)%Z then inject_Z (m * 2 ^ e)
  else Qred (m # Z.to_pos (2 ^ (- e))).

(** The Number value for an exact result. *)
Definition number (x : num) : num :=
  match x with
  | Fin q =>
      let n := Qnum q in
      if (n =? 0)%Z then Fin 0
      else
        match nearest (Z.abs n) (Zpos (Qden q)) with
        | None => inf (n <? 0)%Z
        | Some (m, e) =>
            if (m =? 0)%Z then zero (n <? 0)%Z
            else Fin (dyadic (if (n <? 0)%Z then (- m)%Z else m) e)
        end
  | _ => x
  end.

(** The operators [+], [-], [*] and [/] on numbers. *)
Definition plus (x y : num) : num := number (add x y).
Definition minus (x y : num) : num := number (sub x y).
Definition times (x y : num) : num := number (mul x y).
Definition over (x y : num) : num := number (div x y).

(** The rounding written in [addEntry]: [Math.round(x * 100) / 100]. *)
Definition round2 (x : num) : num := over (round (times x hundred)) hundred.

Definition is_finite (x : num) : bool :=
  match x with
  | Fin _ | NZero => true
  | _ => false
  end.

(** Numeric equality [==] of two numbers. *)
Definition eqb (x y : num) : bool :=
  match magn x, magn y with
  | MZero, MZero => true
  | MFin a, MFin b => Qeq_bool a b
  | MInf, MInf => Bool.eqb (signbit x) (signbit y)
  | _, _ => false
  end.

End Num.
Import Num.

(* ------------------------------------------------------------------ *)
(** ** The tokenizer of the host, on the alphabet that [evalMath] admits *)

Module Lexer.

Inductive token : Type :=
| TNum (v : Q)
| TPlus | TMinus | TStar | TSlash
| TLParen | TRParen
| TIncr | TDecr       (* the punctuators ++ and -- *)
| TDot.               (* a dot that does not start a numeric literal *)

(** A token with the flag "a line terminator precedes it". *)
Abbreviation ftoken := (bool * token)%type (only parsing).

Inductive lexres : Type :=
| LexOk (ts : list ftoken)
| LexUnmodelled.      (* a comment, a regular expression literal or ** *)

Definition emit (t : ftoken) (r : lexres) : lexres :=
  match r with
  | LexOk ts => LexOk (t :: ts)
  | LexUnmodelled => LexUnmodelled
  end.

Definition digit_val (c : N) : N := (c - 48)%N.

(** The values of the decimal digits at the head of a string. *)
Fixpoint digits_prefix (s : str) : list N :=
  match s with
  | c :: r => if is_digit c then digit_val c :: digits_prefix r else []
  | [] => []
  end.

Definition of_digits (base : N) (ds : list N) : N :=
  fold_left (fun a d => (base * a + d)%N) ds 0%N.

Definition int_value (ds : list N) : Q := inject_Z (Z.of_N (of_digits 10 ds)).

Fixpoint pow10 (n : nat) : positive :=
  match n with
  | O => 1%positive
  | S k => (10 * pow10 k)%positive
  end.

Definition frac_value (fs : list N) : Q :=
  Qred (Z.of_N (of_digits 10 fs) # pow10 (length fs)).

Definition decimal_value (ds fs : list N) : Q :=
  Qred (int_value ds + frac_value fs).

Definition starts_with_digit (s : str) : bool :=
  match s with
  | c :: _ => is_digit c
  | [] => false
  end.

Definition legacy_octal (ds : list N) : bool :=
  match ds with
  | 0%N :: _ :: _ => forallb (fun d => (d <? 8)%N) ds
  | _ => false
  end.

(** The numeric literal at the head of [s] (which starts with a digit, or
    with a dot and a digit): its value and the number of code units it
    takes.  A literal with a leading zero and only octal digits is a
    legacy octal literal, which has no fraction part. *)
Definition scan_number (s : str) : Q * nat :=
  let ds := digits_prefix s in
  let after := skipn (length ds) s in
  if legacy_octal ds then
    (inject_Z (Z.of_N (of_digits 8 ds)), length ds)
  else
    match after with
    | 46%N :: r =>
        let fs := digits_prefix r in
        (decimal_value ds fs, length ds + 1 + length fs)%nat
    | _ => (int_value ds, length ds)
    end.

Definition head_is (c : N) (s : str) : bool :=
  match s with
  | d :: _ => (c =? d)%N
  | [] => false
  end.

(** [lex skip prev nl s]: the tokens of [s] after its first [skip] code
    units (already consumed by the previous token); [prev] tells that the
    previous token ends an operand, which makes a following slash a
    division; [nl] that a line terminator was skipped since. *)
Fixpoint lex (skip : nat) (prev nl : bool) (s : str) : lexres :=
  match s with
  | [] => LexOk []
  | c :: r =>
      match skip with
      | S k => lex k prev nl r
      | O =>
          if is_space c then lex 0 prev (nl || is_line_terminator c) r
          else if is_digit c || (c =? 46)%N && starts_with_digit r then
            let '(v, len) := scan_number s in
            emit (nl, TNum v) (lex (pred len) true false r)
          else if (c =? 46)%N then emit (nl, TDot) (lex 0 false false r)
          else if (c =? 43)%N then
            if head_is 43 r then emit (nl, TIncr) (lex 1 false false r)
            else emit (nl, TPlus) (lex 0 false false r)
          else if (c =? 45)%N then
            if head_is 45 r then emit (nl, TDecr) (lex 1 false false r)
            else emit (nl, TMinus) (lex 0 false false r)
          else if (c =? 42)%N then
            if head_is 42 r then LexUnmodelled
            else emit (nl, TStar) (lex 0 false false r)
          else if (c =? 47)%N then
            if head_is 47 r || head_is 42 r then LexUnmodelled
            else if prev then emit (nl, TSlash) (lex 0 false false r)
            else LexUnmodelled
          else if (c =? 40)%N then emit (nl, TLParen) (lex 0 false false r)
          else if (c =? 41)%N then emit (nl, TRParen) (lex 0 true false r)
          else LexUnmodelled
      end
  end.

End Lexer.
Import Lexer.

(* ------------------------------------------------------------------ *)
(** ** Outcomes of a call *)

Inductive exn : Type :=
| Bad                      (* the string "bad" thrown by [evalMath] *)
| HostError                (* a SyntaxError or TypeError raised by the host *)
| Error (msg : string).    (* [new Error(msg)] *)

Inductive outcome (A : Type) : Type :=
| Returns (a : A)
| Throws (e : exn)
| Unmodelled.              (* the call leaves the modelled fragment *)

Arguments Returns {A} a.
Arguments Throws {A} e.
Arguments Unmodelled {A}.

(* ------------------------------------------------------------------ *)
(** ** The expression parser and evaluator of the host *)

Module Parser.

Inductive expr : Type :=
| ENum (v : Q)
| EPos (e : expr)
| ENeg (e : expr)
| EAdd (a b : expr)
| ESub (a b : expr)
| EMul (a b : expr)
| EDiv (a b : expr).

Inductive presult : Type :=
| POk (e : expr) (rest : list ftoken)
| PThrow
| PUnmodelled
| PFuel.

Definition bind (r : presult) (k : expr -> list ftoken -> presult) : presult :=
  match r with
  | POk e rest => k e rest
  | PThrow => PThrow
  | PUnmodelled => PUnmodelled
  | PFuel => PFuel
  end.

(** What may follow a complete operand.  A call, a member access and an
    update operator all end in an error on this alphabet; a numeric
    literal on the same line is a syntax error, on a later line it may
    start a new statement after an inserted semicolon. *)
Definition postfix (e : expr) (toks : list ftoken) : presult :=
  match toks with
  | (_, TLParen) :: _ | (_, TDot) :: _ | (_, TIncr) :: _ | (_, TDecr) :: _ =>
      PThrow
  | (nl, TNum _) :: _ => if nl then PUnmodelled else PThrow
  | _ => POk e toks
  end.

Definition close_paren (e : expr) (toks : list ftoken) : presult :=
  match toks with
  | (_, TRParen) :: r => postfix e r
  | _ => PThrow
  end.

Fixpoint p_unary (n : nat) (toks : list ftoken) : presult :=
  match n with
  | O => PFuel
  | S k =>
      match toks with
      | (_, TPlus) :: r => bind (p_unary k r) (fun e r' => POk (EPos e) r')
      | (_, TMinus) :: r => bind (p_unary k r) (fun e r' => POk (ENeg e) r')
      | (_, TNum v) :: r => postfix (ENum v) r
      | (_, TLParen) :: r =>
          bind (bind (bind (p_unary k r) (p_mul_loop k)) (p_add_loop k))
               close_paren
      | _ => PThrow
      end
  end
with p_mul_loop (n : nat) (lhs : expr) (toks : list ftoken) : presult :=
  match toks with
  | (_, TStar) :: r =>
      match n with
      | O => PFuel
      | S k => bind (p_unary k r) (fun rhs r' => p_mul_loop k (EMul lhs rhs) r')
      end
  | (_, TSlash) :: r =>
      match n with
      | O => PFuel
      | S k => bind (p_unary k r) (fun rhs r' => p_mul_loop k (EDiv lhs rhs) r')
      end
  | _ => POk lhs toks
  end
with p_add_loop (n : nat) (lhs : expr) (toks : list ftoken) : presult :=
  match toks with
  | (_, TPlus) :: r =>
      match n with
      | O => PFuel
      | S k =>
          bind (bind (p_unary k r) (p_mul_loop k))
               (fun rhs r' => p_add_loop k (EAdd lhs rhs) r')
      end
  | (_, TMinus) :: r =>
      match n with
      | O => PFuel
      | S k =>
          bind (bind (p_unary k r) (p_mul_loop k))
               (fun rhs r' => p_add_loop k (ESub lhs rhs) r')
      end
  | _ => POk lhs toks
  end.

Definition p_additive (n : nat) (toks : list ftoken) : presult :=
  bind (bind (p_unary n toks) (p_mul_loop n)) (p_add_loop n).

Fixpoint eval (e : expr) : num :=
  match e with
  | ENum v => number (Fin v)
  | EPos a => eval a
  | ENeg a => neg (eval a)
  | EAdd a b => plus (eval a) (eval b)
  | ESub a b => minus (eval a) (eval b)
  | EMul a b => times (eval a) (eval b)
  | EDiv a b => over (eval a) (eval b)
  end.

(** [Function("return " + body)()] for a body over the admitted alphabet. *)
Definition run (body : str) : outcome num :=
  match lex 0 false false body with
  | LexUnmodelled => Unmodelled
  | LexOk toks =>
      match p_additive (S (length toks)) toks with
      | POk e [] => Returns (eval e)
      | POk _ (_ :: _) => Throws HostError
      | PThrow => Throws HostError
      | PUnmodelled | PFuel => Unmodelled
      end
  end.

End Parser.
Import Parser.

(* ------------------------------------------------------------------ *)
(** ** Utils *)

Module Utils.

(** The character class of the regular expression of [evalMath]. *)
Definition allowed_char (c : N) : bool :=
  is_digit c || (c =? 43)%N || (c =? 45)%N || (c =? 42)%N || (c =? 47)%N
  || (c =? 40)%N || (c =? 41)%N || (c =? 46)%N || is_space c.

(** [/^[0-9+\-*/().\s]+$/.test(expr)] *)
Definition allowed (s : str) : bool :=
  match s with
  | [] => false
  | _ => forallb allowed_char s
  end.

Definition evalMath (expr : str) : outcome num :=
  if allowed expr then run (lit "(" ++ expr ++ lit ")")
  else Throws Bad.

End Utils.
Import Utils.

(* ------------------------------------------------------------------ *)
(** ** Values, JSON and the storage collaborator *)

Module Js.

Set Warnings "-register-all".

Inductive jsval : Type :=
| VUndefined
| VNull
| VBool (b : bool)
| VNum (x : num)
| VStr (s : str)
| VArr (l : list jsval)
| VObj (fields : list (str * jsval)).   (* own properties, in insertion order *)

(** ToBoolean *)
Definition truthy (v : jsval) : bool :=
  match v with
  | VUndefined | VNull => false
  | VBool b => b
  | VNum x => match magn x with MZero | MNaN => false | _ => true end
  | VStr s => match s with [] => false | _ => true end
  | VArr _ | VObj _ => true
  end.

Fixpoint assoc (k : str) (fs : list (str * jsval)) : option jsval :=
  match fs with
  | [] => None
  | (k', v) :: r => if Str.eqb k k' then Some v else assoc k r
  end.

(** [o.k] for a value [o] that is neither null nor undefined: an own
    property of an object, [undefined] otherwise (the keys read by the
    tracker are on no prototype). *)
Definition get (k : str) (o : jsval) : jsval :=
  match o with
  | VObj fs => match assoc k fs with Some v => v | None => VUndefined end
  | _ => VUndefined
  end.

Fixpoint assign (k : str) (v : jsval) (fs : list (str * jsval))
  : list (str * jsval) :=
  match fs with
  | [] => [(k, v)]
  | (k', v') :: r =>
      if Str.eqb k k' then (k, v) :: r else (k', v') :: assign k v r
  end.

(** [o.k = v] on an object. *)
Definition set (k : str) (v : jsval) (o : jsval) : jsval :=
  match o with
  | VObj fs => VObj (assign k v fs)
  | _ => o
  end.

Definition is_array (v : jsval) : bool :=
  match v with
  | VArr _ => true
  | _ => false
  end.

(** A serialized text, by what [JSON.parse] makes of it. *)
Inductive text : Type :=
| Garbled (raw : str)      (* a text that is not JSON *)
| Json (doc : jsval).      (* a JSON text, and the value it denotes *)

Definition JSON_parse (t : text) : outcome jsval :=
  match t with
  | Garbled _ => Throws HostError
  | Json v => Returns v
  end.

(** The value that the text written by [JSON.stringify] denotes: a number
    that is not finite becomes null, the negative zero becomes 0, an
    undefined array element becomes null and an undefined property is
    left out. *)
Fixpoint jsonify (v : jsval) : jsval :=
  match v with
  | VNum x =>
      match x with
      | Fin _ => v
      | NZero => VNum (Fin 0)
      | _ => VNull
      end
  | VArr l =>
      VArr (map (fun e => match e with
                          | VUndefined => VNull
                          | _ => jsonify e
                          end) l)
  | VObj fs =>
      VObj ((fix fields (fs : list (str * jsval)) : list (str * jsval) :=
               match fs with
               | [] => []
               | (k, VUndefined) :: r => fields r
               | (k, e) :: r => (k, jsonify e) :: fields r
               end) fs)
  | _ => v
  end.

(** [JSON.stringify(v)] and [JSON.stringify(v, null, 2)], which differ in
    layout only; [None] is the result [undefined]. *)
Definition JSON_stringify (v : jsval) : option text :=
  match v with
  | VUndefined => None
  | _ => Some (Json (jsonify v))
  end.

(** The storage collaborator, seen through the one key [KEY]. *)
Record storage : Type := {
  item : option text;      (* [None]: nothing stored, [getItem] gives null *)
  get_throws : bool        (* [getItem] raises *)
}.

Definition getItem (st : storage) : outcome (option text) :=
  if get_throws st then Throws HostError else Returns (item st).

(** [setItem(KEY, value)]; a value that is no string is stored as
    [String(value)]. *)
Definition setItem (value : option text) (st : storage) : storage :=
  {| item := Some (match value with
                   | Some t => t
                   | None => Garbled (lit "undefined")
                   end);
     get_throws := get_throws st |}.

End Js.
Import Js.

(* ------------------------------------------------------------------ *)
(** ** The Tracker class *)

Module Tracker.

Record tracker : Type := {
  storage_of : option storage;   (* [this.storage], [None] when null *)
  state : jsval                  (* [this.state] *)
}.

Definition k_version := lit "version".
Definition k_balance := lit "balance".
Definition k_expiry := lit "expiry".
Definition k_history := lit "history".
Definition k_ts := lit "ts".
Definition k_expr := lit "expr".
Definition k_desc := lit "desc".
Definition k_delta := lit "delta".

(** [{ version: 1, balance: 0, expiry: Utils.todayISO(), history: [] }] *)
Definition default_state (today : str) : jsval :=
  VObj [(k_version, VNum (Fin 1)); (k_balance, VNum (Fin 0));
        (k_expiry, VStr today); (k_history, VArr [])].

(** [load()], for the storage given to the constructor and the date that
    [Utils.todayISO()] returns. *)
Definition load (today : str) (sto : option storage) : jsval :=
  match sto with
  | None => default_state today
  | Some st =>
      match getItem st with
      | Returns None => default_state today       (* JSON.parse(null) is null *)
      | Returns (Some t) =>
          match JSON_parse t with
          | Returns v => if truthy v then v else default_state today
          | _ => default_state today
          end
      | _ => default_state today
      end
  end.

(** [new Tracker(storage)] *)
Definition create (today : str) (sto : option storage) : tracker :=
  {| storage_of := sto; state := load today sto |}.

Definition save (t : tracker) : tracker :=
  match storage_of t with
  | Some st =>
      {| storage_of := Some (setItem (JSON_stringify (state t)) st);
         state := state t |}
  | None => t
  end.

(** [h.delta] of a history element, when it is a number. *)
Definition delta_of (h : jsval) : option num :=
  match h with
  | VObj _ => match get k_delta h with VNum d => Some d | _ => None end
  | _ => None
  end.

(** [history.reduce((sum, h) => sum + h.delta, 0)] over numeric deltas. *)
Fixpoint sum_deltas (acc : num) (l : list jsval) : option num :=
  match l with
  | [] => Some acc
  | h :: r =>
      match delta_of h with
      | Some d => sum_deltas (plus acc d) r
      | None => None
      end
  end.

Definition with_state (t : tracker) (s : jsval) : tracker :=
  {| storage_of := storage_of t; state := s |}.

(** A call returns its outcome and the tracker it leaves behind. *)
Definition result (A : Type) : Type := (outcome A * tracker)%type.

Definition recomputeBalance (t : tracker) : result unit :=
  match state t with
  | VObj _ =>
      match get k_history (state t) with
      | VArr l =>
          match sum_deltas (Fin 0) l with
          | Some s => (Returns tt, with_state t (set k_balance (VNum s) (state t)))
          | None => (Unmodelled, t)
          end
      | _ => (Unmodelled, t)
      end
  | _ => (Unmodelled, t)
  end.

Definition is_operator (c : N) : bool :=
  (c =? 43)%N || (c =? 45)%N || (c =? 42)%N || (c =? 47)%N.

(** The normalized expression of [addEntry]: a leading sign is added
    unless the text starts with one of + - * /. *)
Definition normalize (cleanExpr : str) : str :=
  match cleanExpr with
  | c :: _ => if is_operator c then cleanExpr else 43%N :: cleanExpr
  | [] => cleanExpr
  end.

Definition entry (now : Z) (e desc : str) (delta balance : num) : jsval :=
  VObj [(k_ts, VNum (Fin (inject_Z now))); (k_expr, VStr e);
        (k_desc, VStr desc); (k_delta, VNum delta);
        (k_balance, VNum balance)].

(** [this.state.balance + delta]: the balance is converted to a number,
    unless it is a string or an object, where [+] concatenates ([None]). *)
Definition balance_plus (balance : jsval) (delta : num) : option num :=
  match balance with
  | VNum b => Some (plus b delta)
  | VUndefined => Some (plus NaN delta)
  | VNull => Some (plus (Fin 0) delta)
  | VBool b => Some (plus (if b then Fin 1 else Fin 0) delta)
  | VStr _ | VArr _ | VObj _ => None
  end.

(** [addEntry(expr, desc)], with [now] the value of [Date.now()].  The
    balance is assigned before the history is read: when the history is
    no array, [push] raises after the assignment. *)
Definition addEntry (now : Z) (expr desc : str) (t : tracker) : result num :=
  match trim expr with
  | [] => (Throws (Error "Empty expression"), t)
  | cleanExpr0 =>
      let cleanExpr := normalize cleanExpr0 in
      match evalMath cleanExpr with
      | Throws e => (Throws e, t)
      | Unmodelled => (Unmodelled, t)
      | Returns delta =>
          match state t with
          | VObj _ =>
              match balance_plus (get k_balance (state t)) delta with
              | Some sum =>
                  let nb := round2 sum in
                  let s1 := set k_balance (VNum nb) (state t) in
                  match get k_history s1 with
                  | VArr l =>
                      let s2 := set k_history
                                  (VArr (l ++ [entry now cleanExpr desc
                                                 delta nb])) s1 in
                      (Returns delta, save (with_state t s2))
                  | _ => (Throws HostError, with_state t s1)
                  end
              | None => (Unmodelled, t)
              end
          | _ => (Unmodelled, t)
          end
      end
  end.

Definition undo (t : tracker) : result bool :=
  match state t with
  | VObj _ =>
      match get k_history (state t) with
      | VArr [] => (Returns false, t)
      | VArr l =>
          let s1 := set k_history (VArr (removelast l)) (state t) in
          match recomputeBalance (with_state t s1) with
          | (Returns _, t') => (Returns true, save t')
          | (Throws e, t') => (Throws e, t')
          | (Unmodelled, t') => (Unmodelled, t')
          end
      | _ => (Unmodelled, t)
      end
  | _ => (Unmodelled, t)
  end.

Definition updateExpiry (date : str) (t : tracker) : result unit :=
  match state t with
  | VObj _ => (Returns tt, save (with_state t (set k_expiry (VStr date) (state t))))
  | _ => (Unmodelled, t)
  end.

Definition importData (jsonString : text) (t : tracker) : result unit :=
  match JSON_parse jsonString with
  | Throws e => (Throws e, t)
  | Unmodelled => (Unmodelled, t)
  | Returns data =>
      match data with
      | VNull | VUndefined => (Throws HostError, t)
      | _ =>
          if negb (truthy (get k_version data))
             || negb (is_array (get k_history data))
          then (Throws (Error "Invalid data format"), t)
          else (Returns tt, save (with_state t data))
      end
  end.

Definition exportData (t : tracker) : option text :=
  JSON_stringify (state t).

End Tracker.
Import Tracker.

(* ------------------------------------------------------------------ *)
(** * Definitions of the specification *)

Module Scenario.

Definition today : str := lit "2024-01-01".
Definition empty_storage : storage := {| item := None; get_throws := false |}.
Definition fresh : tracker := create today (Some empty_storage).

(** The tracker after a call, whatever its outcome. *)
Definition after {A : Type} (r : result A) : tracker := snd r.

Definition balance_of (t : tracker) : jsval := get k_balance (state t).
Definition history_of (t : tracker) : jsval := get k_history (state t).

Definition t1 : tracker := after (addEntry 1 (lit "100") (lit "Initial") fresh).
Definition t2 : tracker := after (addEntry 2 (lit "50+25") (lit "Bonus") t1).
Definition t3 : tracker := after (undo t2).

End Scenario.
Import Scenario.

(** The structural validation of the specification: the text parses, the
    parsed value has a truthy [version] and its [history] is a sequence. *)
Definition valid_payload (txt : text) : bool :=
  match txt with
  | Garbled _ => false
  | Json data => truthy (get k_version data) && is_array (get k_history data)
  end.

(** The tracker that holds [data] and has written it through. *)
Definition replaced_by (data : jsval) (t : tracker) : tracker :=
  {| storage_of := option_map (setItem (JSON_stringify data)) (storage_of t);
     state := data |}.



(** No snapshot can be read: there is no storage, the read raises,
    nothing is stored under the key, or the stored text is not JSON. *)
Definition no_snapshot (sto : option storage) : bool :=
  match sto with
  | None => true
  | Some st =>
      get_throws st
      || match item st with
         | None | Some (Garbled _) => true
         | Some (Json _) => false
         end
  end.

Definition holding (txt : text) : option storage :=
  Some {| item := Some txt; get_throws := false |}.

Module Drift.

(** 1/256 = 0.00390625, a delta below half a cent that binary64 holds
    exactly. *)
Definition small : str := lit "0.00390625".

Definition d1 : tracker := after (addEntry 1 small (lit "a") fresh).
Definition d2 : tracker := after (addEntry 2 (lit "1") (lit "b") d1).

Definition deltas_of (t : tracker) : option num :=
  match history_of t with
  | VArr l => sum_deltas (Fin 0) l
  | _ => None
  end.

End Drift.
Import Drift.

Module Overflow.

(** The tracker after [addEntry("1/0", "x")]: delta and balance are
    [Infinity]. *)
Definition tinf : tracker := after (addEntry 1 (lit "1/0") (lit "x") fresh).

End Overflow.
Import Overflow.

Module Rounding.

(** The finite value that a number stands for. *)
Definition num_is (y : num) (q : Q) : Prop :=
  match y with
  | Fin p => p == q
  | NZero => q == 0
  | _ => False
  end.

(** Nearest integer, a tie going towards +infinity. *)
Definition half_up (p : Q) : Z := Qfloor (p + (1 # 2)).

(** Nearest integer, a tie going away from zero. *)
Definition half_away (p : Q) : Z :=
  if Qle_bool 0 p then Qfloor (p + (1 # 2))
  else (- Qfloor (- p + (1 # 2)))%Z.

(** Nearest hundredth, a tie going away from zero. *)
Definition round_half_away (x : Q) : Q :=
  if Qle_bool 0 x then Qfloor (x * 100 + (1 # 2)) # 100
  else - (Qfloor (- x * 100 + (1 # 2)) # 100).

(** [p] lies halfway between two integers. *)
Definition is_tie (p : Q) : bool :=
  Qeq_bool (inject_Z (Qfloor (p + (1 # 2)))) (p + (1 # 2)).

End Rounding.
Import Rounding.

(** The state that a successful [addEntry] leaves. *)
Definition added (now : Z) (e desc : str) (delta sum : num)
  (l : list jsval) (fs : list (str * jsval)) : jsval :=
  VObj (assign k_history
          (VArr (l ++ [entry now e desc delta (round2 sum)]))
          (assign k_balance (VNum (round2 sum)) fs)).

Module Ledger.

(** A sequence of [addEntry] calls that all succeed: the deltas they
    return and the tracker they leave. *)
Fixpoint addEntries (calls : list (Z * str * str)) (t : tracker)
  : option (list num * tracker) :=
  match calls with
  | [] => Some ([], t)
  | (now, expr, desc) :: rest =>
      match addEntry now expr desc t with
      | (Returns d, t') =>
          match addEntries rest t' with
          | Some (ds, t'') => Some (d :: ds, t'')
          | None => None
          end
      | _ => None
      end
  end.

(** The running balance: [Math.round(x * 100) / 100] applied at every
    step to the balance plus the delta. *)
Definition running (b : num) (ds : list num) : num :=
  fold_left (fun b d => round2 (plus b d)) ds b.

End Ledger.
Import Ledger.

Module Grammar.

(** A string of decimal digits, given by the values of the digits. *)
Definition digits (ds : list N) : Prop := Forall (fun d => (d < 10)%N) ds.

Definition chars (ds : list N) : str := map (fun d => (48 + d)%N) ds.

(** The digits of an integer part or of a fraction part that stands
    alone: at least one. *)
Definition numeral (ds : list N) : Prop := digits ds /\ ds <> [].

(** The value of an integer numeral: in base 10, except that JavaScript
    ([js]) reads a numeral with a leading zero and only octal digits in
    base 8. *)
Definition int_reading (js : bool) (ip : list N) : Q :=
  if js && legacy_octal ip then inject_Z (Z.of_N (of_digits 8 ip))
  else int_value ip.

Definition not_head (p : N -> bool) (s : str) : Prop :=
  match s with
  | c :: _ => p c = false
  | [] => True
  end.

Definition digit_or_dot (c : N) : bool := is_digit c || (c =? 46)%N.

(** [Spells js s ts]: the text [s] is the sequence of tokens [ts], with
    optional white space around them.  A numeral is an integer part, an
    integer part with a dot and a fraction part (which may be empty), or
    a dot and a fraction part; its token carries its value.  Under the
    reading of JavaScript ([js]) a legacy octal numeral takes no
    fraction.  A numeral extends as far as digits go; a sign is not
    followed at once by the same sign, nor a star by a star or a slash by
    a slash or a star. *)
Inductive Spells (js : bool) : str -> list token -> Prop :=
| S_end : Spells js [] []
| S_space c s ts :
    is_space c = true -> Spells js s ts -> Spells js (c :: s) ts
| S_int ip s ts :
    numeral ip -> not_head digit_or_dot s -> Spells js s ts ->
    Spells js (chars ip ++ s) (TNum (int_reading js ip) :: ts)
| S_dec ip fp s ts :
    numeral ip -> js && legacy_octal ip = false -> digits fp ->
    not_head digit_or_dot s -> Spells js s ts ->
    Spells js (chars ip ++ 46%N :: chars fp ++ s)
           (TNum (decimal_value ip fp) :: ts)
| S_frac fp s ts :
    numeral fp -> not_head digit_or_dot s -> Spells js s ts ->
    Spells js (46%N :: chars fp ++ s) (TNum (decimal_value [] fp) :: ts)
| S_plus s ts :
    head_is 43 s = false -> Spells js s ts ->
    Spells js (43%N :: s) (TPlus :: ts)
| S_minus s ts :
    head_is 45 s = false -> Spells js s ts ->
    Spells js (45%N :: s) (TMinus :: ts)
| S_star s ts :
    head_is 42 s = false -> Spells js s ts ->
    Spells js (42%N :: s) (TStar :: ts)
| S_slash s ts :
    head_is 47 s = false -> head_is 42 s = false -> Spells js s ts ->
    Spells js (47%N :: s) (TSlash :: ts)
| S_lparen s ts :
    Spells js s ts -> Spells js (40%N :: s) (TLParen :: ts)
| S_rparen s ts :
    Spells js s ts -> Spells js (41%N :: s) (TRParen :: ts).

(** The three levels of the expression grammar: a unary expression (a
    numeral, a parenthesized expression, or a signed unary expression), a
    product (left-associative * and /) and a sum (left-associative + and
    -). *)
Inductive level : Type := LUnary | LProduct | LSum.

Inductive Derives : level -> list token -> expr -> Prop :=
| D_num v : Derives LUnary [TNum v] (ENum v)
| D_paren ts e :
    Derives LSum ts e -> Derives LUnary (TLParen :: ts ++ [TRParen]) e
| D_pos ts e : Derives LUnary ts e -> Derives LUnary (TPlus :: ts) (EPos e)
| D_neg ts e : Derives LUnary ts e -> Derives LUnary (TMinus :: ts) (ENeg e)
| D_unary ts e : Derives LUnary ts e -> Derives LProduct ts e
| D_mul ts1 e1 ts2 e2 :
    Derives LProduct ts1 e1 -> Derives LUnary ts2 e2 ->
    Derives LProduct (ts1 ++ TStar :: ts2) (EMul e1 e2)
| D_div ts1 e1 ts2 e2 :
    Derives LProduct ts1 e1 -> Derives LUnary ts2 e2 ->
    Derives LProduct (ts1 ++ TSlash :: ts2) (EDiv e1 e2)
| D_product ts e : Derives LProduct ts e -> Derives LSum ts e
| D_add ts1 e1 ts2 e2 :
    Derives LSum ts1 e1 -> Derives LProduct ts2 e2 ->
    Derives LSum (ts1 ++ TPlus :: ts2) (EAdd e1 e2)
| D_sub ts1 e1 ts2 e2 :
    Derives LSum ts1 e1 -> Derives LProduct ts2 e2 ->
    Derives LSum (ts1 ++ TMinus :: ts2) (ESub e1 e2).

(** The value of an expression in exact arithmetic; a division by zero
    has none. *)
Fixpoint denote (e : expr) : option Q :=
  match e with
  | ENum v => Some v
  | EPos a => denote a
  | ENeg a => option_map Qopp (denote a)
  | EAdd a b =>
      match denote a, denote b with
      | Some x, Some y => Some (x + y)
      | _, _ => None
      end
  | ESub a b =>
      match denote a, denote b with
      | Some x, Some y => Some (x - y)
      | _, _ => None
      end
  | EMul a b =>
      match denote a, denote b with
      | Some x, Some y => Some (x * y)
      | _, _ => None
      end
  | EDiv a b =>
      match denote a, denote b with
      | Some x, Some y => if Qeq_bool y 0 then None else Some (x / y)
      | _, _ => None
      end
  end.

(** [q] is a binary64 value. *)
Definition representable (q : Q) : bool :=
  match number (Fin q) with
  | Fin p => Qeq_bool p q
  | _ => false
  end.

(** No numeral and no operation of the expression needs rounding: the
    exact value of every numeral and of every operation is a binary64
    value. *)
Fixpoint unrounded (e : expr) : bool :=
  match e with
  | ENum v => representable v
  | EPos a | ENeg a => unrounded a
  | EAdd a b | ESub a b | EMul a b | EDiv a b =>
      unrounded a && unrounded b
      && match denote e with
         | Some q => representable (Qred q)
         | None => false
         end
  end.

(** An arithmetic text and its value. *)
Definition arithmetic (js : bool) (s : str) (q : Q) : Prop :=
  exists ts e,
    Spells js s ts /\ Derives LSum ts e /\ denote e = Some q.

End Grammar.
Import Grammar.

Module LexSpec.

Definition ends_operand (t : token) : bool :=
  match t with
  | TNum _ | TRParen => true
  | _ => false
  end.

(** Every slash of a token sequence follows a numeral or a closing
    parenthesis; [prev] stands for the token before the sequence. *)
Fixpoint slash_ok (prev : bool) (ts : list token) : bool :=
  match ts with
  | [] => true
  | TSlash :: r => prev && slash_ok false r
  | t :: r => slash_ok (ends_operand t) r
  end.

Definition last_operand (prev : bool) (ts : list token) : bool :=
  fold_left (fun _ t => ends_operand t) ts prev.

End LexSpec.
Import LexSpec.

Module ParseSpec.

(** Tokens before which an operand is complete. *)
Definition may_follow (rest : list ftoken) : bool :=
  match rest with
  | (_, TLParen) :: _ | (_, TDot) :: _ | (_, TIncr) :: _ | (_, TDecr) :: _
  | (_, TNum _) :: _ => false
  | _ => true
  end.

Definition not_product_op (rest : list ftoken) : bool :=
  match rest with
  | (_, TStar) :: _ | (_, TSlash) :: _ => false
  | _ => true
  end.

Definition not_sum_op (rest : list ftoken) : bool :=
  match rest with
  | (_, TPlus) :: _ | (_, TMinus) :: _ => false
  | _ => true
  end.

(** What the parser does on a derived sequence followed by [rest], for
    each level of the grammar, with fuel [n]. *)
Definition parses (lvl : level) (fts : list ftoken) (e : expr) : Prop :=
  forall (n : nat) (rest : list ftoken),
    (length fts <= n)%nat -> may_follow rest = true ->
    match lvl with
    | LUnary => p_unary n (fts ++ rest) = POk e rest
    | LProduct =>
        exists m, (n <= m + length fts)%nat
          /\ bind (p_unary n (fts ++ rest)) (p_mul_loop n)
             = p_mul_loop m e rest
    | LSum =>
        not_product_op rest = true ->
        exists m, (n <= m + length fts)%nat
          /\ bind (bind (p_unary n (fts ++ rest)) (p_mul_loop n))
                  (p_add_loop n)
             = p_add_loop m e rest
    end.

End ParseSpec.
Import ParseSpec.

(* ------------------------------------------------------------------ *)
(** * The rest of src/app.js: dates, the view and the handlers *)

Module Order.

(** [a < b] on strings: the first differing code unit decides, a proper
    prefix is smaller. *)
Fixpoint str_ltb (a b : str) : bool :=
  match a, b with
  | _, [] => false
  | [], _ :: _ => true
  | x :: a', y :: b' =>
      if (x <? y)%N then true
      else if (y <? x)%N then false
      else str_ltb a' b'
  end.

(** The real value of a finite number. *)
Definition value (x : num) : Q :=
  match x with
  | Fin q => q
  | _ => 0
  end.

(** [x <= y] on numbers: false as soon as one side is NaN. *)
Definition leb (x y : num) : bool :=
  match x, y with
  | NaN, _ | _, NaN => false
  | NInf, _ | _, PInf => true
  | PInf, _ | _, NInf => false
  | _, _ => Qle_bool (value x) (value y)
  end.

(** [x >= y] *)
Definition geb (x y : num) : bool := leb y x.

(** [x > y] *)
Definition gtb (x y : num) : bool :=
  match x, y with
  | NaN, _ | _, NaN => false
  | _, _ => negb (leb x y)
  end.

(** [Math.max(0, x)] *)
Definition max0 (x : num) : num :=
  match x with
  | NaN => NaN
  | _ => if leb x (Fin 0) then Fin 0 else x
  end.

(** [Math.floor] *)
Definition floor (x : num) : num :=
  match x with
  | Fin q => Fin (inject_Z (Qfloor q))
  | _ => x
  end.

End Order.
Import Order.

Module Dates.

Definition day_ms : Z := 86400000.

(** [Utils.daysBetween(a, b)] on two dates given by their time values
    (integer milliseconds since the epoch). *)
Definition daysBetween (a b : Z) : Z := ((a - b) / day_ms)%Z.

(** A [Date] object, by its time value: an integer number of
    milliseconds, or none for an Invalid Date.  In arithmetic a date
    stands for its time value, NaN for an Invalid Date. *)
Definition date : Type := option Z.

Definition time (d : date) : num :=
  match d with
  | Some ms => Fin (inject_Z ms)
  | None => NaN
  end.

(** [Math.floor((a - b) / 86400000)] as JavaScript evaluates it on two
    [Date] objects: in binary64, on the time values. *)
Definition days_between (a b : date) : num :=
  floor (over (minus (time a) (time b)) (Fin (inject_Z day_ms))).

End Dates.
Import Dates.

Module View.

Inductive colour : Type := Green | Yellow | Red.

Inductive info : Type :=
| DaysLeft (days dailySafe : num)   (* "N days left . Daily safe S" *)
| Expired.

(** [Math.max(0, Utils.daysBetween(expiry, today) + 1)] for the dates
    [new Date(tracker.state.expiry)] and [new Date(Utils.todayISO())]. *)
Definition daysLeft (expiry today : date) : num :=
  max0 (plus (days_between expiry today) (Fin 1)).

(** [(daysLeft * 250) / 7] *)
Definition threshold (days : num) : num :=
  over (times days (Fin 250)) (Fin 7).

(** The colour of the balance, by the three-way test of [render]. *)
Definition balance_colour (balance days : num) : colour :=
  let th := threshold days in
  if geb balance th then Green
  else if geb balance (minus th (Fin 50)) && leb balance (plus th (Fin 50))
       then Yellow
  else Red.

(** [daysLeft > 0 ? (the days and the daily safe amount) : "Expired"] *)
Definition expiry_info (days dailySafe : num) : info :=
  if gtb days (Fin 0) then DaysLeft days dailySafe else Expired.

(** [daysLeft ? Math.floor(balance / daysLeft) : 0] *)
Definition dailySafe (balance : num) (days : Z) : num :=
  if (days =? 0)%Z then Fin 0
  else floor (div balance (Fin (inject_Z days))).

(** [history.slice(-100).reverse()] *)
Definition shown (history : list jsval) : list jsval :=
  rev (skipn (length history - 100) history).

End View.
Import View.

Module Handlers.






(** The change handler of the expiry field: a value below the date of
    today is replaced by it ([today1] and [today2] are the results of the
    two calls of [Utils.todayISO()]). *)
Definition on_expiry_change (today1 today2 value : str) (t : tracker)
  : result unit :=
  updateExpiry (if str_ltb value today1 then today2 else value) t.

End Handlers.
Import Handlers.

Module Binary64.

(** [2 ^ k <= n / d], for an exponent of either sign. *)
Definition ge_pow (n d k : Z) : Prop :=
  if (0 <=? k)%Z then (d * 2 ^ k <= n)%Z else (d <= n * 2 ^ (- k))%Z.

(** 2 ^ -53, half the distance between 1 and the next binary64 value;
    1 - 2 ^ -53 and 1 + 2 ^ -53; 2 ^ 53. *)
Definition eps : Q := 1 # 9007199254740992.
Definition below : Q := 9007199254740991 # 9007199254740992.
Definition above : Q := 9007199254740993 # 9007199254740992.
Definition two53 : Q := 9007199254740992.

(** The value of a primitive binary64 float of Rocq, for comparison. *)
Definition of_float (f : float) : num :=
  match Prim2SF f with
  | S754_zero s => zero s
  | S754_infinity s => inf s
  | S754_nan => NaN
  | S754_finite s m e => Fin (dyadic (if s then Z.neg m else Z.pos m) e)
  end.

End Binary64.
Import Binary64.

Module Replay.

(** A ledger object with its four fields in the order of the default
    state. *)
Definition ledger_obj (version : jsval) (balance : num) (expiry : jsval)
  (history : list jsval) : jsval :=
  VObj [(k_version, version); (k_balance, VNum balance);
        (k_expiry, expiry); (k_history, VArr history)].

(** [n] calls of [undo] that all return true. *)
Fixpoint undos (n : nat) (t : tracker) : option tracker :=
  match n with
  | O => Some t
  | S k =>
      match undo t with
      | (Returns true, t') => undos k t'
      | _ => None
      end
  end.

(** The storage holds the text that [save] writes for the state. *)
Definition synced (t : tracker) : Prop :=
  match storage_of t with
  | None => True
  | Some st =>
      item st = Some (match JSON_stringify (state t) with
                      | Some txt => txt
                      | None => Garbled (lit "undefined")
                      end)
  end.

Definition has_delta (h : jsval) : Prop := exists d, delta_of h = Some d.

(** A string that does not start with white space. *)
Definition bare (s : str) : Prop :=
  match s with
  | c :: _ => is_space c = false
  | [] => True
  end.

End Replay.
Import Replay.

(* ------------------------------------------------------------------ *)
(** * Properties *)


(** ** The cases of tests/app.test.js and the examples of the specification *)

Example evalMath_t1 : evalMath (lit "10+20-5") = Returns (Fin 25).
Proof. vm_compute. reflexivity. Qed.
Example evalMath_t2 : evalMath (lit "10/2") = Returns (Fin 5).
Proof. vm_compute. reflexivity. Qed.
Example evalMath_t3 : evalMath (lit "alert(1)") = Throws Bad.
Proof. vm_compute. reflexivity. Qed.
Example evalMath_t4 : evalMath (lit "10+20;") = Throws Bad.
Proof. vm_compute. reflexivity. Qed.
Example evalMath_t5 : evalMath (lit "+1+") = Throws HostError.
Proof. vm_compute. reflexivity. Qed.
Example evalMath_t6 : evalMath (lit "2+3*(4-1)/.5") = Returns (Fin 20).
Proof. vm_compute. reflexivity. Qed.
Example evalMath_t7 : evalMath (lit "010") = Returns (Fin 8).
Proof. vm_compute. reflexivity. Qed.
Example evalMath_t8 : evalMath (lit "+1/0") = Returns PInf.
Proof. vm_compute. reflexivity. Qed.
Example evalMath_t9 : evalMath (lit "-0.125") = Returns (Fin (-1 # 8)).
Proof. vm_compute. reflexivity. Qed.

Example fresh_is_default : state fresh = default_state today.
Proof. reflexivity. Qed.

Example add_100 :
  fst (addEntry 1 (lit "100") (lit "Initial") fresh) = Returns (Fin 100)
  /\ balance_of t1 = VNum (Fin 100)
  /\ history_of t1
     = VArr [entry 1 (lit "+100") (lit "Initial") (Fin 100) (Fin 100)].
Proof. vm_compute. repeat split; reflexivity. Qed.

Example add_50_25 :
  fst (addEntry 2 (lit "50+25") (lit "Bonus") t1) = Returns (Fin 75)
  /\ balance_of t2 = VNum (Fin 175).
Proof. vm_compute. repeat split; reflexivity. Qed.

Example undo_after_two :
  fst (undo t2) = Returns true
  /\ balance_of t3 = VNum (Fin 100)
  /\ history_of t3 = history_of t1.
Proof. vm_compute. repeat split; reflexivity. Qed.

Example saved_on_update :
  option_map item (storage_of t1) = Some (Some (Json (state t1))).
Proof. vm_compute. reflexivity. Qed.

Example loads_from_storage :
  state (create today (storage_of t1)) = state t1.
Proof. vm_compute. reflexivity. Qed.

Lemma eqb_refl (k : str) : Str.eqb k k = true.
Proof. unfold Str.eqb; destruct (list_eq_dec N.eq_dec k k); congruence. Qed.

Lemma assoc_assign_same (k : str) (v : jsval) (fs : list (str * jsval)) :
  assoc k (assign k v fs) = Some v.
Proof.
  induction fs as [ | [k0 v0] r IH]; simpl.
  - rewrite eqb_refl; reflexivity.
  - destruct (Str.eqb k k0) eqn:E; simpl.
    + rewrite eqb_refl; reflexivity.
    + rewrite E; exact IH.
Qed.

Lemma assoc_assign_other (k k' : str) (v : jsval) (fs : list (str * jsval)) :
  Str.eqb k' k = false -> assoc k' (assign k v fs) = assoc k' fs.
Proof.
  intros Hk; induction fs as [ | [k0 v0] r IH]; simpl.
  - rewrite Hk; reflexivity.
  - destruct (Str.eqb k k0) eqn:E; simpl.
    + unfold Str.eqb in E.
      destruct (list_eq_dec N.eq_dec k k0) as [<- | ]; [ | discriminate].
      rewrite Hk; reflexivity.
    + destruct (Str.eqb k' k0); [reflexivity | exact IH].
Qed.

(* ------------------------------------------------------------------ *)
(** ** importData *)

Lemma state_save (t : tracker) : state (save t) = state t.
Proof. unfold save; destruct (storage_of t); reflexivity. Qed.

Lemma save_with_state (t : tracker) (data : jsval) :
  save (with_state t data) = replaced_by data t.
Proof.
  unfold save, with_state, replaced_by; simpl.
  destruct (storage_of t); reflexivity.
Qed.

Lemma importData_valid (data : jsval) (t : tracker) :
  valid_payload (Json data) = true ->
  importData (Json data) t = (Returns tt, replaced_by data t).
Proof.
  unfold valid_payload, importData; simpl; intros H.
  apply andb_true_iff in H; destruct H as [Hv Ha].
  rewrite Hv, Ha; simpl; rewrite save_with_state.
  destruct data; try reflexivity; discriminate.
Qed.

Lemma importData_invalid (txt : text) (t : tracker) :
  valid_payload txt = false ->
  exists e, importData txt t = (Throws e, t).
Proof.
  destruct txt as [raw | data]; simpl; intros H.
  - exists HostError; reflexivity.
  - assert (C : negb (truthy (get k_version data))
                 || negb (is_array (get k_history data)) = true).
    { apply andb_false_iff in H; destruct H as [H | H]; rewrite H;
        [reflexivity | apply orb_true_r]. }
    unfold importData, JSON_parse.
    destruct data; try (exists HostError; reflexivity);
      rewrite C; exists (Error "Invalid data format"); reflexivity.
Qed.

(** C5: [importData] fails exactly when the text does not parse, or the
    parsed value has no truthy [version], or its [history] is not a
    sequence; a failure leaves the tracker (state and storage) as it was,
    a success replaces the whole state by the parsed payload and writes it
    to the storage. *)
Theorem importData_validation (txt : text) (t : tracker) :
  match txt with
  | Json data =>
      if valid_payload txt
      then importData txt t = (Returns tt, replaced_by data t)
      else exists e, importData txt t = (Throws e, t)
  | Garbled _ => exists e, importData txt t = (Throws e, t)
  end.
Proof.
  destruct txt as [raw | data].
  - apply importData_invalid; reflexivity.
  - destruct (valid_payload (Json data)) eqn:E.
    + apply importData_valid; exact E.
    + apply importData_invalid; exact E.
Qed.

(* ------------------------------------------------------------------ *)
(** ** load *)

(** C7, as the specification has it, fails: a stored text that parses to
    a truthy value is taken as the state without validation.  Here the
    stored document is [{"foo": 1}]. *)
Lemma load_takes_unvalidated_snapshot :
  let junk := VObj [(lit "foo", VNum (Fin 1))] in
  valid_payload (Json junk) = false
  /\ load today (holding (Json junk)) = junk
  /\ load today (holding (Json junk)) <> default_state today.
Proof.
  simpl; split; [reflexivity | split; [reflexivity | discriminate]].
Qed.

(** C7 (amended): [load] always yields a state; it is the default state
    when no snapshot can be read and when the stored text parses to a
    falsy value, and the parsed value itself, unvalidated, when that
    value is truthy. *)
Theorem load_default_or_snapshot (today : str) (sto : option storage) :
  (no_snapshot sto = true -> load today sto = default_state today)
  /\ (forall v, sto = holding (Json v) ->
        load today sto = if truthy v then v else default_state today).
Proof.
  split.
  - destruct sto as [[it th] | ]; simpl; [ | reflexivity].
    unfold load, getItem; simpl.
    destruct th; simpl; [reflexivity | ].
    destruct it as [[raw | v] | ]; simpl; try reflexivity; discriminate.
  - intros v ->; reflexivity.
Qed.

Lemma load_default_or_snapshot_witness :
  no_snapshot (holding (Garbled (lit "{oops"))) = true
  /\ load today (holding (Garbled (lit "{oops"))) = default_state today
  /\ load today (holding (Json VNull)) = default_state today.
Proof.
  split; [reflexivity | ].
  split.
  - apply (proj1 (load_default_or_snapshot today
                    (holding (Garbled (lit "{oops"))))); reflexivity.
  - apply (proj2 (load_default_or_snapshot today (holding (Json VNull)))
             VNull); reflexivity.
Defined.

(* ------------------------------------------------------------------ *)
(** ** addEntry: failures *)

Lemma get_history_after_balance (v : jsval) (fs : list (str * jsval)) :
  get k_history (set k_balance v (VObj fs)) = get k_history (VObj fs).
Proof.
  unfold get, set; rewrite assoc_assign_other by reflexivity; reflexivity.
Qed.




(* ------------------------------------------------------------------ *)
(** ** recomputeBalance and undo *)

Lemma recomputeBalance_sum (t : tracker) (fs : list (str * jsval))
  (l : list jsval) (s : num) :
  state t = VObj fs ->
  assoc k_history fs = Some (VArr l) ->
  sum_deltas (Fin 0) l = Some s ->
  recomputeBalance t
  = (Returns tt, with_state t (VObj (assign k_balance (VNum s) fs))).
Proof.
  intros Hs Hh Hd; unfold recomputeBalance; rewrite Hs; simpl.
  rewrite Hh, Hd; reflexivity.
Qed.

Lemma assign_assign (k : str) (v w : jsval) (fs : list (str * jsval)) :
  assign k w (assign k v fs) = assign k w fs.
Proof.
  assert (R : Str.eqb k k = true).
  { unfold Str.eqb; destruct (list_eq_dec N.eq_dec k k); congruence. }
  induction fs as [ | [k0 v0] r IH]; simpl.
  - rewrite R; reflexivity.
  - destruct (Str.eqb k k0) eqn:E; simpl.
    + rewrite R; reflexivity.
    + rewrite E, IH; reflexivity.
Qed.

(** What [recomputeBalance] does hold: the balance it leaves is the sum
    of the deltas, whatever the balance was, and a second call changes
    nothing. *)
Lemma recomputeBalance_idempotent (t : tracker) (fs : list (str * jsval))
  (l : list jsval) (s : num) :
  state t = VObj fs ->
  assoc k_history fs = Some (VArr l) ->
  sum_deltas (Fin 0) l = Some s ->
  let t' := snd (recomputeBalance t) in
  balance_of t' = VNum s /\ snd (recomputeBalance t') = t'.
Proof.
  intros Hs Hh Hd.
  rewrite (recomputeBalance_sum t Hs Hh Hd); simpl.
  assert (Ha : assoc k_history (assign k_balance (VNum s) fs)
               = Some (VArr l)).
  { rewrite assoc_assign_other; [exact Hh | reflexivity]. }
  split.
  - unfold balance_of; simpl.
    clear; induction fs as [ | [k0 v0] r IH]; simpl; [reflexivity | ].
    destruct (Str.eqb k_balance k0) eqn:E; simpl.
    + reflexivity.
    + rewrite E; exact IH.
  - erewrite recomputeBalance_sum; [ | reflexivity | exact Ha | exact Hd].
    simpl; unfold with_state; simpl; rewrite assign_assign; reflexivity.
Qed.

(** C2 is broken by the code: [recomputeBalance] stores the sum of the
    deltas without rounding it.  After [addEntry("0.00390625", "a")] the
    balance is 0, the rounded sum; a [recomputeBalance] then makes it
    0.00390625. *)
Theorem recomputeBalance_skips_rounding :
  fst (addEntry 1 small (lit "a") fresh) = Returns (Fin (1 # 256))
  /\ balance_of d1 = VNum (Fin 0)
  /\ deltas_of d1 = Some (Fin (1 # 256))
  /\ round2 (Fin (1 # 256)) = Fin 0
  /\ fst (recomputeBalance d1) = Returns tt
  /\ balance_of (snd (recomputeBalance d1)) = VNum (Fin (1 # 256)).
Proof. vm_compute. repeat split; reflexivity. Qed.

Lemma undo_empty (t : tracker) (fs : list (str * jsval)) :
  state t = VObj fs ->
  assoc k_history fs = Some (VArr []) ->
  undo t = (Returns false, t).
Proof.
  intros Hs Hh; unfold undo; rewrite Hs; simpl; rewrite Hh; reflexivity.
Qed.

(** What [undo] does on a history that is not empty: the last entry is
    removed, the balance becomes the sum of the remaining deltas, the
    state is written through and the call returns true. *)
Lemma undo_nonempty (t : tracker) (fs : list (str * jsval))
  (l : list jsval) (h : jsval) (s : num) :
  state t = VObj fs ->
  assoc k_history fs = Some (VArr (l ++ [h])) ->
  sum_deltas (Fin 0) l = Some s ->
  undo t
  = (Returns true,
     save (with_state t
             (VObj (assign k_balance (VNum s)
                      (assign k_history (VArr l) fs))))).
Proof.
  intros Hs Hh Hd; unfold undo; rewrite Hs; unfold get; rewrite Hh.
  destruct (l ++ [h]) as [ | x r] eqn:E;
    [apply app_eq_nil in E; destruct E; discriminate | ].
  rewrite <- E, removelast_last.
  unfold set.
  erewrite recomputeBalance_sum;
    [reflexivity | reflexivity | apply assoc_assign_same | exact Hd].
Qed.

(** C3 is broken by the code in its last part: [undo] removes the last
    entry and returns true, but the balance it leaves is the sum of the
    remaining deltas without rounding.  After the entries 0.00390625 and
    1 the balance is 1; [undo] leaves 0.00390625 where the rounded sum of
    the remaining delta is 0. *)
Theorem undo_skips_rounding :
  balance_of d2 = VNum (Fin 1)
  /\ fst (undo d2) = Returns true
  /\ history_of (snd (undo d2)) = history_of d1
  /\ deltas_of (snd (undo d2)) = Some (Fin (1 # 256))
  /\ round2 (Fin (1 # 256)) = Fin 0
  /\ balance_of (snd (undo d2)) = VNum (Fin (1 # 256)).
Proof. vm_compute. repeat split; reflexivity. Qed.

(* ------------------------------------------------------------------ *)
(** ** importData and the balance *)




(* ------------------------------------------------------------------ *)
(** ** exportData and importData *)

(** C6, as the specification has it, fails: [addEntry("1/0", "x")]
    succeeds on the default state and leaves the balance [Infinity],
    which the exported text renders as null; importing that text succeeds
    and leaves the balance null. *)
Lemma roundtrip_loses_infinity :
  fst (addEntry 1 (lit "1/0") (lit "x") fresh) = Returns PInf
  /\ balance_of tinf = VNum PInf
  /\ exists txt,
       exportData tinf = Some txt
       /\ fst (importData txt tinf) = Returns tt
       /\ balance_of (snd (importData txt tinf)) = VNull
       /\ balance_of (snd (importData txt tinf)) <> balance_of tinf.
Proof.
  split; [vm_compute; reflexivity | ].
  split; [vm_compute; reflexivity | ].
  eexists; split; [vm_compute; reflexivity | ].
  split; [vm_compute; reflexivity | ].
  split; [vm_compute; reflexivity | vm_compute; discriminate].
Qed.

(** C6 (amended): for a state with a truthy version and a history
    sequence, all of whose values JSON can represent (every number
    finite and not the negative zero, nothing undefined),
    [importData(exportData())] succeeds and leaves the state as it was:
    same balance, expiry and history. *)
Theorem export_import_roundtrip (t : tracker) :
  jsonify (state t) = state t ->
  valid_payload (Json (state t)) = true ->
  exists txt,
    exportData t = Some txt
    /\ fst (importData txt t) = Returns tt
    /\ state (snd (importData txt t)) = state t.
Proof.
  intros Hj Hv.
  exists (Json (state t)); split.
  - unfold exportData, JSON_stringify; rewrite Hj.
    destruct (state t); try reflexivity; discriminate.
  - rewrite (@importData_valid (state t) t Hv); simpl; auto.
Qed.

Lemma export_import_roundtrip_witness :
  exists txt,
    exportData t2 = Some txt
    /\ fst (importData txt t2) = Returns tt
    /\ state (snd (importData txt t2)) = state t2.
Proof.
  apply (@export_import_roundtrip t2); vm_compute; reflexivity.
Defined.

(* ------------------------------------------------------------------ *)
(** ** Rounding *)

Lemma Qfloor_unique (z : Z) (q : Q) :
  inject_Z z <= q -> q < inject_Z (z + 1) -> Qfloor q = z.
Proof.
  intros Hlo Hhi.
  apply Z.le_antisymm.
  - assert (H : inject_Z (Qfloor q) < inject_Z (z + 1)).
    { eapply Qle_lt_trans; [apply Qfloor_le | exact Hhi]. }
    rewrite <- Zlt_Qlt in H; lia.
  - rewrite <- (Qfloor_Z z); apply Qfloor_resp_le; exact Hlo.
Qed.

Lemma is_zero_spec (q : Q) : is_zero q = true <-> q == 0.
Proof. unfold is_zero; apply Qeq_bool_iff. Qed.

Lemma zero_is (s : bool) (q : Q) : q == 0 -> num_is (zero s) q.
Proof. intros H; destruct s; simpl; [exact H | symmetry; exact H]. Qed.

(** [Math.round] takes a finite number to the nearest integer, a tie
    going towards +infinity. *)
Lemma round_half_up (p : Q) :
  num_is (round (Fin p)) (inject_Z (half_up p)).
Proof.
  unfold round, half_up.
  destruct (Z.eqb_spec (Qfloor (p + (1 # 2))) 0) as [E | E].
  - rewrite E; apply zero_is; reflexivity.
  - unfold num_is; reflexivity.
Qed.

Lemma half_up_away (p : Q) :
  Qle_bool 0 p || negb (is_tie p) = true -> half_up p = half_away p.
Proof.
  unfold half_up, half_away, is_tie.
  destruct (Qle_bool 0 p) eqn:Ep; [reflexivity | ].
  rewrite orb_false_l.
  set (a := p + (1 # 2)).
  intros Ht; apply negb_true_iff in Ht.
  apply Qeq_bool_neq in Ht.
  assert (Hlt : inject_Z (Qfloor a) < a).
  { destruct (Qle_lt_or_eq _ _ (Qfloor_le a)) as [H | H]; [exact H | tauto]. }
  assert (Hup : a < inject_Z (Qfloor a + 1)) by apply Qlt_floor.
  assert (F : Qfloor (- p + (1 # 2)) = (- Qfloor a)%Z).
  { apply Qfloor_unique.
    - rewrite inject_Z_opp.
      rewrite inject_Z_plus in Hup; change (inject_Z 1) with 1 in Hup.
      unfold a in *; lra.
    - rewrite inject_Z_plus, inject_Z_opp; change (inject_Z 1) with 1.
      unfold a in *; lra. }
  rewrite F; lia.
Qed.

(* ------------------------------------------------------------------ *)
(** ** addEntry: the successful call *)

Lemma addEntry_returns (now : Z) (expr desc : str) (t t' : tracker)
  (delta : num) :
  addEntry now expr desc t = (Returns delta, t') ->
  exists fs sum l,
    state t = VObj fs
    /\ balance_plus (get k_balance (VObj fs)) delta = Some sum
    /\ assoc k_history fs = Some (VArr l)
    /\ evalMath (normalize (trim expr)) = Returns delta
    /\ t' = save (with_state t
                    (added now (normalize (trim expr)) desc delta sum l fs)).
Proof.
  unfold addEntry.
  destruct (trim expr) as [ | c r]; [discriminate | ].
  destruct (evalMath (normalize (c :: r))) as [d | e | ]; try discriminate.
  destruct (state t) as [ | | | | | | fs] eqn:Es; try discriminate.
  destruct (balance_plus (get k_balance (VObj fs)) d) as [sum | ] eqn:Eb;
    [ | discriminate].
  rewrite get_history_after_balance; unfold get at 1.
  destruct (assoc k_history fs) as [[ | | | | | l | ] | ] eqn:Eh;
    try discriminate.
  intros H; injection H as <- <-.
  exists fs, sum, l; repeat split; assumption || reflexivity.
Qed.

(** The same, for a state whose balance is a number. *)
Lemma addEntry_returns_num (now : Z) (expr desc : str) (t t' : tracker)
  (delta b : num) (fs : list (str * jsval)) :
  state t = VObj fs -> assoc k_balance fs = Some (VNum b) ->
  addEntry now expr desc t = (Returns delta, t') ->
  exists l,
    assoc k_history fs = Some (VArr l)
    /\ evalMath (normalize (trim expr)) = Returns delta
    /\ t' = save (with_state t
                    (added now (normalize (trim expr)) desc delta
                       (plus b delta) l fs)).
Proof.
  intros Hs Hb Ha.
  destruct (addEntry_returns _ _ _ _ Ha)
    as (fs0 & sum & l & Es & Eb & Eh & Ev & Et).
  rewrite Hs in Es; injection Es as <-.
  unfold get in Eb; rewrite Hb in Eb; injection Eb as <-.
  exists l; auto.
Qed.

Lemma get_added_balance now e desc delta sum l fs :
  get k_balance (added now e desc delta sum l fs) = VNum (round2 sum).
Proof.
  unfold added, get.
  rewrite assoc_assign_other by reflexivity.
  rewrite assoc_assign_same; reflexivity.
Qed.

Lemma get_added_history now e desc delta sum l fs :
  get k_history (added now e desc delta sum l fs)
  = VArr (l ++ [entry now e desc delta (round2 sum)]).
Proof. unfold added, get; rewrite assoc_assign_same; reflexivity. Qed.

(** C9, as the specification has it, fails: from balance 0 the delta
    -0.125 gives the balance -0.12 (the double nearest to it), where
    rounding half away from zero gives -0.13. *)
Lemma addEntry_negative_tie :
  balance_of fresh = VNum (Fin 0)
  /\ fst (addEntry 1 (lit "-0.125") (lit "x") fresh) = Returns (Fin (-1 # 8))
  /\ balance_of (after (addEntry 1 (lit "-0.125") (lit "x") fresh))
     = VNum (number (Fin (-12 # 100)))
  /\ round_half_away (0 + (-1 # 8)) == -13 # 100
  /\ number (Fin (-12 # 100)) <> number (Fin (-13 # 100)).
Proof.
  repeat split; try (vm_compute; reflexivity).
  vm_compute; discriminate.
Qed.

(** C9 (amended): a successful [addEntry] on a numeric balance [b] sets
    the balance to [Math.round((b + d) * 100) / 100] evaluated in
    binary64 for the delta [d]: the sum and its product by 100 are
    rounded to doubles, [Math.round] takes the product to the nearest
    integer, a tie going towards +infinity, and the quotient by 100 is
    rounded to a double.  [Math.round] agrees with rounding half away
    from zero unless the product is negative and a tie.  The entry keeps
    the delta as evaluated, unrounded. *)
Theorem addEntry_rounds_half_up (now : Z) (expr desc : str)
  (t t' : tracker) (delta b : num) :
  balance_of t = VNum b ->
  addEntry now expr desc t = (Returns delta, t') ->
  evalMath (normalize (trim expr)) = Returns delta
  /\ balance_of t'
     = VNum (over (round (times (plus b delta) hundred)) hundred)
  /\ (exists l,
        history_of t = VArr l
        /\ history_of t'
           = VArr (l ++ [entry now (normalize (trim expr)) desc delta
                           (over (round (times (plus b delta) hundred))
                                 hundred)]))
  /\ forall p, times (plus b delta) hundred = Fin p ->
       num_is (round (times (plus b delta) hundred)) (inject_Z (half_up p))
       /\ (Qle_bool 0 p || negb (is_tie p) = true ->
           half_up p = half_away p).
Proof.
  intros Hb H.
  destruct (addEntry_returns _ _ _ _ H)
    as (fs & sum & l & Es & Eb & Eh & Ev & ->).
  unfold balance_of in Hb; rewrite Es in Hb; rewrite Hb in Eb.
  injection Eb as <-.
  unfold balance_of, history_of.
  rewrite state_save.
  change (state (with_state t ?s)) with s.
  rewrite get_added_balance, get_added_history, Es; unfold get.
  rewrite Eh.
  split; [exact Ev | split; [reflexivity | split]].
  - exists l; split; reflexivity.
  - intros p Hp; rewrite Hp; split;
      [apply round_half_up | apply half_up_away].
Qed.

Lemma addEntry_rounds_half_up_witness :
  balance_of t1 = VNum (Fin 100)
  /\ addEntry 2 (lit " 1.005 ") (lit "y") t1
     = (Returns (number (Fin (1005 # 1000))),
        after (addEntry 2 (lit " 1.005 ") (lit "y") t1))
  /\ balance_of (after (addEntry 2 (lit " 1.005 ") (lit "y") t1))
     = VNum (over (round (times (plus (Fin 100) (number (Fin (1005 # 1000))))
                            hundred)) hundred)
  /\ round2 (plus (Fin 0) (number (Fin (1005 # 1000)))) = Fin 1.
Proof.
  assert (A : addEntry 2 (lit " 1.005 ") (lit "y") t1
              = (Returns (number (Fin (1005 # 1000))),
                 after (addEntry 2 (lit " 1.005 ") (lit "y") t1)))
    by (vm_compute; reflexivity).
  split; [reflexivity | split; [exact A | split]].
  - exact (proj1 (proj2 (@addEntry_rounds_half_up 2 (lit " 1.005 ") (lit "y")
                           t1 _ _ (Fin 100) eq_refl A))).
  - vm_compute; reflexivity.
Defined.

(* ------------------------------------------------------------------ *)
(** ** Sequences of addEntry calls *)

(** C1, as the specification has it, fails: the balance is rounded at
    every step, the sum of the deltas is not.  Two entries of 0.00390625
    leave the balance 0, while their sum 0.0078125 rounds to 0.01. *)
Lemma addEntry_rounds_stepwise :
  exists t',
    addEntries [(1%Z, small, lit "a"); (2%Z, small, lit "b")] fresh
    = Some ([Fin (1 # 256); Fin (1 # 256)], t')
    /\ balance_of t' = VNum (Fin 0)
    /\ deltas_of t' = Some (Fin (1 # 128))
    /\ round2 (Fin (1 # 128)) = number (Fin (1 # 100))
    /\ balance_of t' <> VNum (round2 (Fin (1 # 128))).
Proof.
  eexists; split; [vm_compute; reflexivity | ].
  repeat split; try (vm_compute; reflexivity).
  vm_compute; discriminate.
Qed.

Lemma sum_deltas_snoc (l : list jsval) (h : jsval) (acc s d : num) :
  sum_deltas acc l = Some s -> delta_of h = Some d ->
  sum_deltas acc (l ++ [h]) = Some (plus s d).
Proof.
  revert acc; induction l as [ | x r IH]; simpl; intros acc Hs Hd.
  - injection Hs as <-; rewrite Hd; reflexivity.
  - destruct (delta_of x); [apply IH; assumption | discriminate].
Qed.

Lemma delta_of_entry now e desc d b : delta_of (entry now e desc d b) = Some d.
Proof. reflexivity. Qed.

Lemma addEntries_ledger (calls : list (Z * str * str)) :
  forall (t t' : tracker) (fs : list (str * jsval)) (b : num)
         (l : list jsval) (ds : list num),
    state t = VObj fs ->
    assoc k_balance fs = Some (VNum b) ->
    assoc k_history fs = Some (VArr l) ->
    addEntries calls t = Some (ds, t') ->
    exists l',
      history_of t' = VArr (l ++ l')
      /\ map delta_of l' = map Some ds
      /\ balance_of t' = VNum (running b ds).
Proof.
  induction calls as [ | [[now expr] desc] rest IH];
    intros t t' fs b l ds Es Eb Eh H.
  - simpl in H; injection H as <- <-.
    exists []; unfold history_of, balance_of; rewrite Es; unfold get.
    rewrite Eh, Eb, app_nil_r; auto.
  - cbn [addEntries] in H.
    destruct (addEntry now expr desc t) as [[d | e | ] t1] eqn:Ea;
      try discriminate.
    destruct (addEntries rest t1) as [[ds1 t2] | ] eqn:Er; try discriminate.
    injection H as <- <-.
    destruct (@addEntry_returns_num _ _ _ _ _ _ _ _ Es Eb Ea)
      as (l0 & Eh0 & _ & Et1).
    rewrite Eh in Eh0; injection Eh0 as <-.
    edestruct (IH t1 t2) as (l' & Hl & Hd & Hb);
      [rewrite Et1, state_save; reflexivity
      | rewrite assoc_assign_other by reflexivity; apply assoc_assign_same
      | apply assoc_assign_same
      | exact Er | ].
    exists (entry now (normalize (trim expr)) desc d (round2 (plus b d))
              :: l').
    rewrite <- app_assoc in Hl; cbn [app] in Hl.
    split; [exact Hl | split; [ | exact Hb]].
    cbn [map]; rewrite delta_of_entry, Hd; reflexivity.
Qed.

Lemma addEntries_prefix (calls rest : list (Z * str * str)) :
  forall (t t' : tracker) (ds : list num),
    addEntries (calls ++ rest) t = Some (ds, t') ->
    exists ds1 t1 ds2,
      addEntries calls t = Some (ds1, t1)
      /\ addEntries rest t1 = Some (ds2, t')
      /\ ds = ds1 ++ ds2.
Proof.
  induction calls as [ | [[now expr] desc] more IH]; intros t t' ds H.
  - exists [], t, ds; auto.
  - cbn [app addEntries] in *.
    destruct (addEntry now expr desc t) as [[d | e | ] t1]; try discriminate.
    destruct (addEntries (more ++ rest) t1) as [[ds0 t2] | ] eqn:Er;
      try discriminate.
    injection H as <- <-.
    destruct (IH _ _ _ Er) as (ds1 & t1' & ds2 & E1 & E2 & ->).
    rewrite E1; exists (d :: ds1), t1', ds2; auto.
Qed.

Lemma addEntries_length (calls : list (Z * str * str)) :
  forall (t t' : tracker) (ds : list num),
    addEntries calls t = Some (ds, t') -> length ds = length calls.
Proof.
  induction calls as [ | [[now expr] desc] more IH]; intros t t' ds H.
  - injection H as <- <-; reflexivity.
  - cbn [addEntries] in H.
    destruct (addEntry now expr desc t) as [[d | e | ] u]; try discriminate.
    destruct (addEntries more u) as [[ds0 u'] | ] eqn:Er; try discriminate.
    injection H as <- <-; cbn [length]; rewrite (IH _ _ _ Er); reflexivity.
Qed.

(** C1 (amended): in every sequence of successful [addEntry] calls from
    the default state, after each call (here: after the calls [calls],
    whatever calls [rest] follow) the history holds, in order, one entry
    for each call so far, with the delta that the call returned, and the
    balance is the running balance: the rounding to two decimals is
    applied at every step to the prior balance plus the delta, not to
    the sum of the deltas. *)
Theorem addEntries_running_balance (today : str) (t0 t' : tracker)
  (calls rest : list (Z * str * str)) (ds : list num) :
  state t0 = default_state today ->
  addEntries (calls ++ rest) t0 = Some (ds, t') ->
  exists ds1 t1 l,
    addEntries calls t0 = Some (ds1, t1)
    /\ ds1 = firstn (length calls) ds
    /\ history_of t1 = VArr l
    /\ map delta_of l = map Some ds1
    /\ balance_of t1 = VNum (running (Fin 0) ds1).
Proof.
  intros E0 H.
  destruct (addEntries_prefix _ _ _ H) as (ds1 & t1 & ds2 & H1 & _ & ->).
  destruct (@addEntries_ledger calls t0 t1 _ (Fin 0) [] ds1 E0
              eq_refl eq_refl H1) as (l & Hl & Hd & Hb).
  exists ds1, t1, l; repeat split; try assumption.
  pose proof (addEntries_length _ _ H1) as Hlen.
  rewrite <- Hlen, firstn_app, Nat.sub_diag, firstn_all; cbn [firstn].
  rewrite app_nil_r; reflexivity.
Qed.

Lemma addEntries_running_balance_witness :
  state fresh = default_state today
  /\ addEntries ([(1%Z, lit "100", lit "Initial")]
                 ++ [(2%Z, lit "50+25", lit "Bonus")]) fresh
     = Some ([Fin 100; Fin 75], t2)
  /\ exists ds1 t1' l,
       addEntries [(1%Z, lit "100", lit "Initial")] fresh = Some (ds1, t1')
       /\ ds1 = firstn 1 [Fin 100; Fin 75]
       /\ history_of t1' = VArr l
       /\ map delta_of l = map Some ds1
       /\ balance_of t1' = VNum (running (Fin 0) ds1).
Proof.
  assert (A : addEntries ([(1%Z, lit "100", lit "Initial")]
                            ++ [(2%Z, lit "50+25", lit "Bonus")]) fresh
              = Some ([Fin 100; Fin 75], t2)) by (vm_compute; reflexivity).
  split; [reflexivity | split; [exact A | ]].
  exact (@addEntries_running_balance today fresh t2
           [(1%Z, lit "100", lit "Initial")]
           [(2%Z, lit "50+25", lit "Bonus")] [Fin 100; Fin 75] eq_refl A).
Defined.

(* ------------------------------------------------------------------ *)
(** ** Infix arithmetic texts *)

(** C4, as the specification has it, fails: the numeral 010 is ten, and
    [evalMath] reads it as a legacy octal literal, eight; the sum of 0.1
    and 0.2 is three tenths, and [evalMath] returns the binary64 sum of
    the two doubles, which is not the double of three tenths. *)
Lemma evalMath_legacy_octal :
  arithmetic false (lit "010") 10
  /\ evalMath (lit "010") = Returns (Fin 8)
  /\ Fin 8 <> number (Fin 10)
  /\ arithmetic false (lit "0.1+0.2") ((1 # 10) + (1 # 5))
  /\ (1 # 10) + (1 # 5) == 3 # 10
  /\ evalMath (lit "0.1+0.2")
     = Returns (plus (number (Fin (1 # 10))) (number (Fin (1 # 5))))
  /\ plus (number (Fin (1 # 10))) (number (Fin (1 # 5)))
     <> number (Fin (3 # 10)).
Proof.
  split; [ | split; [vm_compute; reflexivity
                    | split; [vm_compute; discriminate | ]]].
  - exists [TNum (int_reading false [0; 1; 0]%N)],
           (ENum (int_reading false [0; 1; 0]%N)).
    split; [ | split; [repeat constructor | reflexivity]].
    apply (@S_int false [0; 1; 0]%N [] []); [ | exact I | constructor].
    split; [repeat constructor | discriminate].
  - split; [ | split; [reflexivity
                      | split; [vm_compute; reflexivity
                               | vm_compute; discriminate]]].
    exists [TNum (decimal_value [0%N] [1%N]); TPlus;
            TNum (decimal_value [0%N] [2%N])],
           (EAdd (ENum (decimal_value [0%N] [1%N]))
                 (ENum (decimal_value [0%N] [2%N]))).
    split; [ | split; [ | reflexivity]].
    + apply (@S_dec false [0%N] [1%N]);
        [split; [repeat constructor | discriminate] | reflexivity
        | repeat constructor | reflexivity | ].
      apply S_plus; [reflexivity | ].
      apply (@S_dec false [0%N] [2%N] [] []);
        [split; [repeat constructor | discriminate] | reflexivity
        | repeat constructor | exact I | constructor].
    + apply (@D_add [TNum (decimal_value [0%N] [1%N])] _
                    [TNum (decimal_value [0%N] [2%N])]).
      * apply D_product, D_unary, D_num.
      * apply D_unary, D_num.
Qed.

Lemma evalMath_rejects (s : str) :
  (exists c, In c s /\ allowed_char c = false) -> evalMath s = Throws Bad.
Proof.
  intros (c & Hin & Hc); unfold evalMath, allowed.
  destruct s as [ | a r]; [reflexivity | ].
  destruct (forallb allowed_char (a :: r)) eqn:E; [ | reflexivity].
  rewrite forallb_forall in E; rewrite (E c Hin) in Hc; discriminate.
Qed.

(* ------------------------------------------------------------------ *)
(** ** The tokenizer on arithmetic texts *)

Lemma lex_skip (pre rest : str) (prev nl : bool) :
  lex (length pre) prev nl (pre ++ rest) = lex 0 prev nl rest.
Proof.
  induction pre as [ | c r IH]; simpl; [reflexivity | exact IH].
Qed.

Lemma digit_char (d : N) :
  (d < 10)%N ->
  is_digit (48 + d) = true /\ is_space (48 + d) = false
  /\ digit_val (48 + d) = d.
Proof.
  intros H; unfold is_digit, is_space, digit_val.
  repeat split.
  - apply andb_true_iff; split; apply N.leb_le; lia.
  - repeat (apply orb_false_iff; split);
      try (apply N.eqb_neq; lia);
      apply andb_false_iff;
      first [right; apply N.leb_gt; lia | left; apply N.leb_gt; lia].
  - lia.
Qed.

Lemma digits_prefix_chars (ds : list N) (rest : str) :
  digits ds -> not_head is_digit rest ->
  digits_prefix (chars ds ++ rest) = ds.
Proof.
  intros Hd Hr; induction Hd as [ | d r Hlt _ IH];
    cbn [chars map app digits_prefix].
  - destruct rest as [ | c r]; [reflexivity | ].
    unfold not_head in Hr; cbn [digits_prefix]; rewrite Hr; reflexivity.
  - destruct (digit_char Hlt) as (E1 & _ & E3).
    rewrite E1, E3; f_equal; exact IH.
Qed.

Lemma not_head_digit (s : str) :
  not_head digit_or_dot s -> not_head is_digit s.
Proof.
  destruct s as [ | c r]; unfold not_head; [trivial | ].
  unfold digit_or_dot; intros H; apply orb_false_iff in H; tauto.
Qed.

Lemma length_chars (ds : list N) : length (chars ds) = length ds.
Proof. apply length_map. Qed.

Lemma skipn_chars (ds : list N) (rest : str) :
  skipn (length ds) (chars ds ++ rest) = rest.
Proof.
  rewrite <- (length_chars ds), skipn_app, skipn_all, Nat.sub_diag.
  reflexivity.
Qed.

Lemma scan_tail (ds : list N) (s : str) :
  not_head digit_or_dot s ->
  match s with
  | 46%N :: r =>
      (decimal_value ds (digits_prefix r),
       (length ds + 1 + length (digits_prefix r))%nat)
  | _ => (int_value ds, length ds)
  end = (int_value ds, length ds).
Proof.
  intros Hs; destruct s as [ | c r]; [reflexivity | ].
  unfold not_head, digit_or_dot in Hs; apply orb_false_iff in Hs.
  destruct Hs as [_ Hs]; apply N.eqb_neq in Hs.
  destruct c as [ | p]; [reflexivity | ].
  destruct (N.eq_dec (N.pos p) 46) as [E | E]; [contradiction | ].
  repeat (destruct p as [p | p | ]; try reflexivity); contradiction.
Qed.

Lemma scan_int (ip : list N) (s : str) :
  numeral ip -> not_head digit_or_dot s ->
  scan_number (chars ip ++ s) = (int_reading true ip, length ip).
Proof.
  intros Hi Hs; unfold scan_number, int_reading.
  rewrite (digits_prefix_chars s (proj1 Hi) (not_head_digit s Hs)).
  rewrite skipn_chars, andb_true_l.
  destruct (legacy_octal ip); [reflexivity | apply scan_tail; exact Hs].
Qed.

Lemma scan_dec (ip fp : list N) (s : str) :
  numeral ip -> legacy_octal ip = false -> digits fp ->
  not_head digit_or_dot s ->
  scan_number (chars ip ++ 46%N :: chars fp ++ s)
  = (decimal_value ip fp, (length ip + 1 + length fp)%nat).
Proof.
  intros Hi Ho Hf Hs; unfold scan_number.
  rewrite (digits_prefix_chars _ (proj1 Hi)) by reflexivity.
  rewrite Ho, skipn_chars.
  rewrite (digits_prefix_chars s Hf (not_head_digit s Hs)).
  reflexivity.
Qed.

Lemma scan_frac (fp : list N) (s : str) :
  digits fp -> not_head digit_or_dot s ->
  scan_number (46%N :: chars fp ++ s)
  = (decimal_value [] fp, S (length fp)).
Proof.
  intros Hf Hs; unfold scan_number.
  change (digits_prefix (46%N :: chars fp ++ s)) with (@nil N).
  cbn [legacy_octal length skipn].
  rewrite (digits_prefix_chars s Hf (not_head_digit s Hs)).
  reflexivity.
Qed.

Lemma lex_number (c : N) (r : str) (prev nl : bool) (v : Q) (len : nat) :
  is_space c = false ->
  is_digit c || (c =? 46)%N && starts_with_digit r = true ->
  scan_number (c :: r) = (v, len) ->
  lex 0 prev nl (c :: r) = emit (nl, TNum v) (lex (pred len) true false r).
Proof.
  intros Hs Hd Hn; cbn [lex]; rewrite Hs, Hd, Hn; reflexivity.
Qed.

Lemma lex_skip_to (k : nat) (pre rest : str) (prev nl : bool) :
  length pre = k -> lex k prev nl (pre ++ rest) = lex 0 prev nl rest.
Proof. intros <-; apply lex_skip. Qed.

Lemma emit_ok (t : ftoken) (r : lexres) (ts : list token) :
  (exists fts, r = LexOk fts /\ map snd fts = ts) ->
  exists fts, emit t r = LexOk fts /\ map snd fts = snd t :: ts.
Proof.
  intros (fts & -> & <-); exists (t :: fts); split; reflexivity.
Qed.

Lemma lex_spells (s : str) (ts : list token) :
  Spells true s ts ->
  forall prev nl, slash_ok prev ts = true ->
    exists fts, lex 0 prev nl s = LexOk fts /\ map snd fts = ts.
Proof.
  induction 1 as [ | c s ts Hc _ IH | ip s ts Hi Hs _ IH
                 | ip fp s ts Hi Ho Hf Hs _ IH
                 | fp s ts Hi Hs _ IH
                 | s ts Hh _ IH | s ts Hh _ IH | s ts Hh _ IH
                 | s ts Hh Hh' _ IH | s ts _ IH | s ts _ IH ];
    intros prev nl Hok.
  - exists []; split; reflexivity.
  - cbn [lex]; rewrite Hc; apply IH; exact Hok.
  - destruct ip as [ | d ip']; [destruct Hi as [_ []]; reflexivity | ].
    assert (Hd : (d < 10)%N) by (destruct Hi as [Hi _]; inversion Hi; assumption).
    destruct (digit_char Hd) as (E1 & E2 & _).
    pose proof (scan_int s Hi Hs) as Hn.
    cbn [chars map app] in *.
    rewrite (@lex_number _ _ prev nl _ _ E2
               ltac:(rewrite E1; reflexivity) Hn).
    apply (emit_ok (nl, TNum (int_reading true (d :: ip')))).
    cbn [length pred].
    rewrite lex_skip_to by apply length_chars.
    apply IH; exact Hok.
  - destruct ip as [ | d ip']; [destruct Hi as [_ []]; reflexivity | ].
    assert (Hd : (d < 10)%N) by (destruct Hi as [Hi _]; inversion Hi; assumption).
    destruct (digit_char Hd) as (E1 & E2 & _).
    pose proof (scan_dec s Hi Ho Hf Hs) as Hn.
    cbn [chars map app] in *.
    rewrite (@lex_number _ _ prev nl _ _ E2
               ltac:(rewrite E1; reflexivity) Hn).
    apply (emit_ok (nl, TNum (decimal_value (d :: ip') fp))).
    cbn [length pred plus].
    replace (map (fun d0 => (48 + d0)%N) ip' ++ 46%N :: chars fp ++ s)
      with ((chars ip' ++ 46%N :: chars fp) ++ s)
      by (rewrite <- app_assoc; reflexivity).
    rewrite lex_skip_to.
    + apply IH; exact Hok.
    + rewrite length_app; cbn [length]; rewrite !length_chars; lia.
  - destruct fp as [ | d fp']; [destruct Hi as [_ []]; reflexivity | ].
    assert (Hd : (d < 10)%N) by (destruct Hi as [Hi _]; inversion Hi; assumption).
    destruct (digit_char Hd) as (E1 & _ & _).
    pose proof (scan_frac s (proj1 Hi) Hs) as Hn.
    assert (Hst : is_digit 46 || (46 =? 46)%N
                  && starts_with_digit (chars (d :: fp') ++ s) = true).
    { cbn [chars map app starts_with_digit]; rewrite E1; reflexivity. }
    rewrite (@lex_number 46%N (chars (d :: fp') ++ s) prev nl _ _
               eq_refl Hst Hn).
    apply (emit_ok (nl, TNum (decimal_value [] (d :: fp')))).
    cbn [pred].
    rewrite lex_skip_to by apply length_chars.
    apply IH; exact Hok.
  - cbn [lex]; change (is_space 43) with false; cbv iota.
    change (is_digit 43 || (43 =? 46)%N && starts_with_digit s) with false.
    change ((43 =? 46)%N) with false; change ((43 =? 43)%N) with true.
    cbv iota; rewrite Hh.
    apply (emit_ok (nl, TPlus)); apply IH; exact Hok.
  - cbn [lex]; change (is_space 45) with false; cbv iota.
    change (is_digit 45 || (45 =? 46)%N && starts_with_digit s) with false.
    change ((45 =? 46)%N) with false; change ((45 =? 43)%N) with false.
    change ((45 =? 45)%N) with true.
    cbv iota; rewrite Hh.
    apply (emit_ok (nl, TMinus)); apply IH; exact Hok.
  - cbn [lex]; change (is_space 42) with false; cbv iota.
    change (is_digit 42 || (42 =? 46)%N && starts_with_digit s) with false.
    change ((42 =? 46)%N) with false; change ((42 =? 43)%N) with false.
    change ((42 =? 45)%N) with false; change ((42 =? 42)%N) with true.
    cbv iota; rewrite Hh.
    apply (emit_ok (nl, TStar)); apply IH; exact Hok.
  - cbn [slash_ok] in Hok; apply andb_true_iff in Hok; destruct Hok as [-> Hok].
    cbn [lex]; change (is_space 47) with false; cbv iota.
    change (is_digit 47 || (47 =? 46)%N && starts_with_digit s) with false.
    change ((47 =? 46)%N) with false; change ((47 =? 43)%N) with false.
    change ((47 =? 45)%N) with false; change ((47 =? 42)%N) with false.
    change ((47 =? 47)%N) with true.
    cbv iota; rewrite Hh, Hh'; cbn [orb].
    apply (emit_ok (nl, TSlash)); apply IH; exact Hok.
  - cbn [lex]; change (is_space 40) with false; cbv iota.
    change (is_digit 40 || (40 =? 46)%N && starts_with_digit s) with false.
    apply (emit_ok (nl, TLParen)); apply IH; exact Hok.
  - cbn [lex]; change (is_space 41) with false; cbv iota.
    change (is_digit 41 || (41 =? 46)%N && starts_with_digit s) with false.
    apply (emit_ok (nl, TRParen)); apply IH; exact Hok.
Qed.

Lemma slash_ok_app (a b : list token) (p : bool) :
  slash_ok p (a ++ b) = slash_ok p a && slash_ok (last_operand p a) b.
Proof.
  revert p; induction a as [ | t r IH]; intros p; [reflexivity | ].
  destruct t; cbn [app slash_ok last_operand fold_left ends_operand];
    try apply IH.
  rewrite IH, andb_assoc; reflexivity.
Qed.

Lemma last_operand_app (a b : list token) (p : bool) :
  last_operand p (a ++ b) = last_operand (last_operand p a) b.
Proof. apply fold_left_app. Qed.

(** A derived token sequence is not empty, ends with a numeral or a
    closing parenthesis, and has its slashes after operands. *)
Lemma derives_shape (lvl : level) (ts : list token) (e : expr) :
  Derives lvl ts e ->
  ts <> [] /\ (forall p, last_operand p ts = true)
  /\ (forall p, slash_ok p ts = true).
Proof.
  induction 1 as [ v | ts e _ (Hn & Hl & Hs) | ts e _ (Hn & Hl & Hs)
                 | ts e _ (Hn & Hl & Hs) | ts e _ IH
                 | ts1 e1 ts2 e2 _ (Hn1 & Hl1 & Hs1) _ (Hn2 & Hl2 & Hs2)
                 | ts1 e1 ts2 e2 _ (Hn1 & Hl1 & Hs1) _ (Hn2 & Hl2 & Hs2)
                 | ts e _ IH
                 | ts1 e1 ts2 e2 _ (Hn1 & Hl1 & Hs1) _ (Hn2 & Hl2 & Hs2)
                 | ts1 e1 ts2 e2 _ (Hn1 & Hl1 & Hs1) _ (Hn2 & Hl2 & Hs2) ];
    try exact IH.
  - repeat split; [discriminate | ..]; intros p; reflexivity.
  - repeat split; [discriminate | ..]; intros p.
    + change (TLParen :: ts ++ [TRParen]) with ([TLParen] ++ ts ++ [TRParen]).
      rewrite !last_operand_app; reflexivity.
    + change (slash_ok false (ts ++ [TRParen]) = true).
      rewrite slash_ok_app, Hs; reflexivity.
  - repeat split; [discriminate | ..]; intros p.
    + change (last_operand false ts = true); apply Hl.
    + change (slash_ok false ts = true); apply Hs.
  - repeat split; [discriminate | ..]; intros p.
    + change (last_operand false ts = true); apply Hl.
    + change (slash_ok false ts = true); apply Hs.
  - repeat split; [destruct ts1; discriminate | ..]; intros p.
    + rewrite last_operand_app; change (last_operand false ts2 = true).
      apply Hl2.
    + rewrite slash_ok_app, Hs1; change (slash_ok false ts2 = true).
      apply Hs2.
  - repeat split; [destruct ts1; discriminate | ..]; intros p.
    + rewrite last_operand_app; change (last_operand false ts2 = true).
      apply Hl2.
    + rewrite slash_ok_app, Hs1, Hl1.
      change (slash_ok false ts2 = true); apply Hs2.
  - repeat split; [destruct ts1; discriminate | ..]; intros p.
    + rewrite last_operand_app; change (last_operand false ts2 = true).
      apply Hl2.
    + rewrite slash_ok_app, Hs1; change (slash_ok false ts2 = true).
      apply Hs2.
  - repeat split; [destruct ts1; discriminate | ..]; intros p.
    + rewrite last_operand_app; change (last_operand false ts2 = true).
      apply Hl2.
    + rewrite slash_ok_app, Hs1; change (slash_ok false ts2 = true).
      apply Hs2.
Qed.

Lemma not_head_snoc (p : N -> bool) (s : str) (c : N) :
  p c = false -> not_head p s -> not_head p (s ++ [c]).
Proof. intros Hc; destruct s; simpl; auto. Qed.

Lemma head_is_snoc (a c : N) (s : str) :
  (a =? c)%N = false -> head_is a s = false -> head_is a (s ++ [c]) = false.
Proof. intros Hc; destruct s; simpl; auto. Qed.

Lemma spells_snoc (js : bool) (s : str) (ts : list token) :
  Spells js s ts -> Spells js (s ++ [41%N]) (ts ++ [TRParen]).
Proof.
  induction 1; cbn [app].
  - apply S_rparen; constructor.
  - apply S_space; assumption.
  - rewrite <- app_assoc; apply S_int; try assumption.
    apply not_head_snoc; [reflexivity | assumption].
  - rewrite <- app_assoc; cbn [app]; rewrite <- app_assoc.
    apply S_dec; try assumption.
    apply not_head_snoc; [reflexivity | assumption].
  - rewrite <- app_assoc.
    apply S_frac; try assumption.
    apply not_head_snoc; [reflexivity | assumption].
  - apply S_plus; [apply head_is_snoc; [reflexivity | assumption] | assumption].
  - apply S_minus; [apply head_is_snoc; [reflexivity | assumption] | assumption].
  - apply S_star; [apply head_is_snoc; [reflexivity | assumption] | assumption].
  - apply S_slash; try assumption;
      (apply head_is_snoc; [reflexivity | assumption]).
  - apply S_lparen; assumption.
  - apply S_rparen; assumption.
Qed.

Lemma allowed_space (c : N) : is_space c = true -> allowed_char c = true.
Proof. intros H; unfold allowed_char; rewrite H; apply orb_true_r. Qed.

Lemma allowed_digits (ds : list N) :
  digits ds -> forallb allowed_char (chars ds) = true.
Proof.
  induction 1 as [ | d r Hd _ IH]; [reflexivity | ].
  cbn [chars map forallb]; apply andb_true_iff; split; [ | exact IH].
  unfold allowed_char; rewrite (proj1 (digit_char Hd)); reflexivity.
Qed.

Lemma spells_allowed (js : bool) (s : str) (ts : list token) :
  Spells js s ts -> forallb allowed_char s = true.
Proof.
  induction 1 as [ | c s ts Hc _ IH | ip s ts Hi Hs _ IH
                 | ip fp s ts Hi Ho Hf Hs _ IH
                 | fp s ts Hi Hs _ IH
                 | s ts Hh _ IH | s ts Hh _ IH | s ts Hh _ IH
                 | s ts Hh Hh' _ IH | s ts _ IH | s ts _ IH ];
    try (cbn [forallb]; rewrite IH; reflexivity).
  - reflexivity.
  - cbn [forallb]; rewrite (allowed_space _ Hc), IH; reflexivity.
  - rewrite forallb_app, (allowed_digits (proj1 Hi)), IH; reflexivity.
  - rewrite forallb_app, (allowed_digits (proj1 Hi)); cbn [forallb andb].
    rewrite forallb_app, (allowed_digits Hf), IH; reflexivity.
  - cbn [forallb]; rewrite forallb_app, (allowed_digits (proj1 Hi)), IH.
    reflexivity.
Qed.

(* ------------------------------------------------------------------ *)
(** ** The parser on derived token sequences *)

Lemma postfix_ok (e : expr) (rest : list ftoken) :
  may_follow rest = true -> postfix e rest = POk e rest.
Proof.
  destruct rest as [ | [nl []] r]; simpl; intros H;
    reflexivity || discriminate.
Qed.

Lemma mul_loop_done (n : nat) (e : expr) (rest : list ftoken) :
  not_product_op rest = true -> p_mul_loop n e rest = POk e rest.
Proof.
  destruct n; destruct rest as [ | [nl []] r]; simpl; intros H;
    reflexivity || discriminate.
Qed.

Lemma add_loop_done (n : nat) (e : expr) (rest : list ftoken) :
  not_sum_op rest = true -> p_add_loop n e rest = POk e rest.
Proof.
  destruct n; destruct rest as [ | [nl []] r]; simpl; intros H;
    reflexivity || discriminate.
Qed.

Lemma map_snd_cons (fts : list ftoken) (t : token) (ts : list token) :
  map snd fts = t :: ts ->
  exists nl fts', fts = (nl, t) :: fts' /\ map snd fts' = ts.
Proof.
  destruct fts as [ | [nl t'] r]; simpl; [discriminate | ].
  intros H; injection H as -> <-; exists nl, r; auto.
Qed.

Lemma map_snd_infix (fts : list ftoken) (ts1 ts2 : list token) (t : token) :
  map snd fts = ts1 ++ t :: ts2 ->
  exists f1 nl f2,
    fts = f1 ++ (nl, t) :: f2 /\ map snd f1 = ts1 /\ map snd f2 = ts2.
Proof.
  intros H; apply map_eq_app in H.
  destruct H as (f1 & f2' & -> & H1 & H2).
  apply map_snd_cons in H2; destruct H2 as (nl & f2 & -> & H2).
  exists f1, nl, f2; auto.
Qed.

Lemma parse_unary_sign (t : token) (mk : expr -> expr) (f : list ftoken)
  (e : expr) (nl : bool) :
  (forall k r, p_unary (S k) ((nl, t) :: r)
               = bind (p_unary k r) (fun e r' => POk (mk e) r')) ->
  parses LUnary f e -> parses LUnary ((nl, t) :: f) (mk e).
Proof.
  intros Heq IH n rest Hn Hf.
  destruct n as [ | k]; [simpl in Hn; lia | ].
  cbn [app]; rewrite Heq, (IH k rest); [reflexivity | simpl in Hn; lia | exact Hf].
Qed.

Lemma parse_product_step (op : token) (mk : expr -> expr -> expr)
  (f1 f2 : list ftoken) (e1 e2 : expr) (nl : bool) :
  (forall k lhs r, p_mul_loop (S k) lhs ((nl, op) :: r)
                   = bind (p_unary k r)
                       (fun rhs r' => p_mul_loop k (mk lhs rhs) r')) ->
  may_follow [(nl, op)] = true ->
  parses LProduct f1 e1 -> parses LUnary f2 e2 ->
  parses LProduct (f1 ++ (nl, op) :: f2) (mk e1 e2).
Proof.
  intros Heq Hop IH1 IH2 n rest Hn Hf.
  rewrite length_app in Hn; cbn [length] in Hn.
  rewrite <- app_assoc; cbn [app].
  destruct (IH1 n ((nl, op) :: f2 ++ rest)) as (m1 & Hm1 & E1);
    [lia | destruct op; reflexivity || discriminate | ].
  destruct m1 as [ | k]; [lia | ].
  exists k; split; [rewrite length_app; cbn [length]; lia | ].
  etransitivity; [exact E1 | ].
  rewrite Heq, (IH2 k rest); [reflexivity | lia | exact Hf].
Qed.

Lemma parse_sum_step (op : token) (mk : expr -> expr -> expr)
  (f1 f2 : list ftoken) (e1 e2 : expr) (nl : bool) :
  (forall k lhs r, p_add_loop (S k) lhs ((nl, op) :: r)
                   = bind (bind (p_unary k r) (p_mul_loop k))
                       (fun rhs r' => p_add_loop k (mk lhs rhs) r')) ->
  not_product_op [(nl, op)] = true -> may_follow [(nl, op)] = true ->
  parses LSum f1 e1 -> parses LProduct f2 e2 ->
  parses LSum (f1 ++ (nl, op) :: f2) (mk e1 e2).
Proof.
  intros Heq Hop Hop' IH1 IH2 n rest Hn Hf Hp.
  rewrite length_app in Hn; cbn [length] in Hn.
  rewrite <- app_assoc; cbn [app].
  destruct (IH1 n ((nl, op) :: f2 ++ rest)) as (m1 & Hm1 & E1);
    [lia | destruct op; reflexivity || discriminate
         | destruct op; reflexivity || discriminate | ].
  destruct m1 as [ | k]; [lia | ].
  destruct (IH2 k rest) as (m2 & _ & E2); [lia | exact Hf | ].
  exists k; split; [rewrite length_app; cbn [length]; lia | ].
  etransitivity; [exact E1 | ].
  rewrite Heq, E2, (mul_loop_done _ _ _ Hp); reflexivity.
Qed.

Lemma parse_derives (lvl : level) (ts : list token) (e : expr) :
  Derives lvl ts e -> forall fts, map snd fts = ts -> parses lvl fts e.
Proof.
  induction 1 as [ v | ts e _ IH | ts e _ IH | ts e _ IH | ts e _ IH
                 | ts1 e1 ts2 e2 _ IH1 _ IH2 | ts1 e1 ts2 e2 _ IH1 _ IH2
                 | ts e _ IH
                 | ts1 e1 ts2 e2 _ IH1 _ IH2 | ts1 e1 ts2 e2 _ IH1 _ IH2 ];
    intros fts Hm.
  - apply map_snd_cons in Hm; destruct Hm as (nl & f & -> & Hm).
    destruct f; [ | discriminate].
    intros n rest Hn Hf.
    destruct n as [ | k]; [simpl in Hn; lia | ].
    cbn [app p_unary]; apply postfix_ok; exact Hf.
  - apply map_snd_cons in Hm; destruct Hm as (nl & f & -> & Hm).
    apply map_snd_infix in Hm; destruct Hm as (f1 & nl' & f2 & -> & H1 & H2).
    destruct f2; [ | discriminate].
    intros n rest Hn Hf.
    cbn [length] in Hn; rewrite length_app in Hn; cbn [length] in Hn.
    destruct n as [ | k]; [lia | ].
    cbn [app p_unary]; rewrite <- app_assoc; cbn [app].
    destruct (IH f1 H1 k ((nl', TRParen) :: rest)) as (m & _ & E);
      [lia | reflexivity | reflexivity | ].
    rewrite E, add_loop_done by reflexivity.
    cbn [bind close_paren]; apply postfix_ok; exact Hf.
  - apply map_snd_cons in Hm; destruct Hm as (nl & f & -> & Hm).
    apply parse_unary_sign; [reflexivity | apply IH; exact Hm].
  - apply map_snd_cons in Hm; destruct Hm as (nl & f & -> & Hm).
    apply parse_unary_sign; [reflexivity | apply IH; exact Hm].
  - intros n rest Hn Hf; exists n; split; [lia | ].
    rewrite (IH fts Hm n rest Hn Hf); reflexivity.
  - apply map_snd_infix in Hm; destruct Hm as (f1 & nl & f2 & -> & H1 & H2).
    apply parse_product_step;
      [reflexivity | reflexivity | apply IH1 | apply IH2]; assumption.
  - apply map_snd_infix in Hm; destruct Hm as (f1 & nl & f2 & -> & H1 & H2).
    apply parse_product_step;
      [reflexivity | reflexivity | apply IH1 | apply IH2]; assumption.
  - intros n rest Hn Hf Hp.
    destruct (IH fts Hm n rest Hn Hf) as (m & _ & E).
    exists n; split; [lia | ].
    rewrite E, (mul_loop_done _ _ _ Hp); reflexivity.
  - apply map_snd_infix in Hm; destruct Hm as (f1 & nl & f2 & -> & H1 & H2).
    apply parse_sum_step;
      [reflexivity | reflexivity | reflexivity | apply IH1 | apply IH2];
      assumption.
  - apply map_snd_infix in Hm; destruct Hm as (f1 & nl & f2 & -> & H1 & H2).
    apply parse_sum_step;
      [reflexivity | reflexivity | reflexivity | apply IH1 | apply IH2];
      assumption.
Qed.

(* ------------------------------------------------------------------ *)
(** ** The evaluator, and where it is exact *)

Lemma num_is_magn (x : num) (a : Q) :
  num_is x a ->
  (magn x = MZero /\ a == 0)
  \/ (exists p, magn x = MFin p /\ p == a /\ ~ a == 0).
Proof.
  destruct x as [p | | | | ]; simpl; try tauto.
  intros H; unfold is_zero.
  destruct (Qeq_bool p 0) eqn:E.
  - left; split; [reflexivity | ].
    apply Qeq_bool_eq in E; rewrite <- H; exact E.
  - right; exists p; repeat split; [exact H | ].
    apply Qeq_bool_neq in E; rewrite <- H; exact E.
Qed.

Lemma num_is_fin (q a : Q) : q == a -> num_is (fin q) a.
Proof. intros H; unfold fin, num_is; rewrite Qred_correct; exact H. Qed.

Lemma num_is_neg (x : num) (a : Q) : num_is x a -> num_is (neg x) (- a).
Proof.
  destruct x as [p | | | | ]; simpl; try tauto; intros H.
  - unfold is_zero; destruct (Qeq_bool p 0) eqn:E.
    + apply Qeq_bool_eq in E; simpl; rewrite <- H, E; reflexivity.
    + apply num_is_fin; rewrite H; reflexivity.
  - rewrite H; reflexivity.
Qed.


(** Where nothing needs rounding, the operators give the exact result. *)
Lemma number_fin (p q : Q) :
  p == q -> representable (Qred q) = true -> num_is (number (fin p)) q.
Proof.
  intros E H; unfold fin; rewrite (Qred_complete _ _ E).
  unfold representable in H.
  destruct (number (Fin (Qred q))) as [r | | | | ]; try discriminate.
  apply Qeq_bool_eq in H; unfold num_is; rewrite H; apply Qred_correct.
Qed.

Lemma number_zero (s : bool) (q : Q) : q == 0 -> num_is (number (zero s)) q.
Proof. destruct s; intros H; exact H || (unfold num_is; simpl; symmetry; exact H). Qed.

Lemma num_is_plus (x y : num) (a b : Q) :
  num_is x a -> num_is y b -> representable (Qred (a + b)) = true ->
  num_is (plus x y) (a + b).
Proof.
  destruct x as [p | | | | ], y as [q | | | | ];
    unfold num_is at 1 2; try tauto; intros Ha Hb R;
    unfold plus, add; cbv iota.
  - apply number_fin; [rewrite Ha, Hb; reflexivity | exact R].
  - apply number_fin; [rewrite Ha, Hb; lra | exact R].
  - apply number_fin; [rewrite Ha, Hb; lra | exact R].
  - unfold number, num_is; rewrite Ha, Hb; reflexivity.
Qed.

Lemma num_is_minus (x y : num) (a b : Q) :
  num_is x a -> num_is y b -> representable (Qred (a - b)) = true ->
  num_is (minus x y) (a - b).
Proof.
  intros Ha Hb R.
  exact (@num_is_plus x (neg y) a (- b) Ha (num_is_neg _ _ Hb) R).
Qed.

Lemma num_is_times (x y : num) (a b : Q) :
  num_is x a -> num_is y b -> representable (Qred (a * b)) = true ->
  num_is (times x y) (a * b).
Proof.
  intros Ha Hb R; unfold times, mul.
  destruct (num_is_magn _ _ Ha) as [[-> Za] | (p & -> & Ep & Na)];
    destruct (num_is_magn _ _ Hb) as [[-> Zb] | (q & -> & Eq & Nb)].
  - apply number_zero; rewrite Za; lra.
  - apply number_zero; rewrite Za; lra.
  - apply number_zero; rewrite Zb; lra.
  - apply number_fin; [rewrite Ep, Eq; reflexivity | exact R].
Qed.

Lemma num_is_over (x y : num) (a b : Q) :
  num_is x a -> num_is y b -> ~ b == 0 ->
  representable (Qred (a / b)) = true -> num_is (over x y) (a / b).
Proof.
  intros Ha Hb Nb R; unfold over, div.
  destruct (num_is_magn _ _ Hb) as [[_ Zb] | (q & -> & Eq & _)];
    [contradiction | ].
  destruct (num_is_magn _ _ Ha) as [[-> Za] | (p & -> & Ep & Na)].
  - apply number_zero; rewrite Za; unfold Qdiv; lra.
  - apply number_fin; [rewrite Ep, Eq; reflexivity | exact R].
Qed.

(** The evaluator computes the exact value of an expression in which
    nothing needs rounding. *)
Lemma eval_unrounded (e : expr) :
  forall q, denote e = Some q -> unrounded e = true -> num_is (eval e) q.
Proof.
  induction e as [ v | a IH | a IH | a IHa b IHb | a IHa b IHb
                 | a IHa b IHb | a IHa b IHb ];
    cbn [unrounded]; intros q H U;
    try (apply andb_prop in U; destruct U as [U R];
         apply andb_prop in U; destruct U as [Ua Ub];
         rewrite H in R; cbn [denote] in H;
         destruct (denote a) as [x | ]; [ | discriminate];
         destruct (denote b) as [y | ]; [ | discriminate]).
  - cbn [denote] in H; injection H as <-; cbn [eval].
    unfold representable in U.
    destruct (number (Fin v)) as [r | | | | ]; try discriminate.
    apply Qeq_bool_eq; exact U.
  - apply IH; assumption.
  - cbn [denote] in H.
    destruct (denote a) as [x | ]; [ | discriminate].
    injection H as <-; apply num_is_neg, IH; [reflexivity | exact U].
  - injection H as <-; apply num_is_plus; auto.
  - injection H as <-; apply num_is_minus; auto.
  - injection H as <-; apply num_is_times; auto.
  - destruct (Qeq_bool y 0) eqn:E; [discriminate | ].
    injection H as <-; apply num_is_over; auto.
    apply Qeq_bool_neq; exact E.
Qed.

(* ------------------------------------------------------------------ *)
(** ** evalMath *)

Lemma spells_nil (js : bool) (ts : list token) :
  Spells js [] ts -> ts = [].
Proof.
  intros H; remember [] as s eqn:Es.
  destruct H as [ | | ip s ts [_ Hi] | ip fp s ts [_ Hi] | | | | | | | ];
    try discriminate; try reflexivity;
    destruct ip; try contradiction; discriminate.
Qed.

Lemma run_arithmetic (s : str) (ts : list token) (e : expr) :
  Spells true s ts -> Derives LSum ts e ->
  run (40%N :: s ++ [41%N]) = Returns (eval e).
Proof.
  intros Hs Hd.
  assert (Hw : Derives LSum (TLParen :: ts ++ [TRParen]) e)
    by (apply D_product, D_unary, D_paren; exact Hd).
  destruct (derives_shape Hw) as (_ & _ & Hok).
  destruct (lex_spells (S_lparen (spells_snoc Hs)) false false (Hok false))
    as (fts & Hl & Hm).
  unfold run; rewrite Hl.
  destruct (@parse_derives _ _ _ Hw fts Hm (S (length fts)) [])
    as (m & _ & E); [lia | reflexivity | reflexivity | ].
  rewrite app_nil_r in E; unfold p_additive; rewrite E.
  rewrite add_loop_done by reflexivity; reflexivity.
Qed.

Lemma evalMath_eval (s : str) (ts : list token) (e : expr) :
  Spells true s ts -> Derives LSum ts e -> evalMath s = Returns (eval e).
Proof.
  intros Hs Hd; unfold evalMath, allowed.
  rewrite (spells_allowed Hs).
  destruct s as [ | c r].
  - apply spells_nil in Hs; subst ts.
    destruct (derives_shape Hd) as (Hn & _); contradiction.
  - apply (run_arithmetic Hs Hd).
Qed.

(** C4 (amended): a text with a character outside the admitted set is
    rejected with "bad" before any evaluation.  An infix arithmetic text
    over that set (numerals with an integer part, a fraction part or
    both; unary and binary + and -, binary * and /, parentheses, optional
    white space; no sign written directly after the same sign) evaluates
    under the conventional precedence and grouping, in the arithmetic of
    JavaScript: an integer numeral with a leading zero and only octal
    digits is read in base 8, and every numeral and every operation gives
    the binary64 value nearest to its exact result.  Where no numeral and
    no operation needs rounding and nothing is divided by zero, the result
    is the exact value. *)
Theorem evalMath_arithmetic :
  (forall s, (exists c, In c s /\ allowed_char c = false) ->
             evalMath s = Throws Bad)
  /\ (forall s ts e, Spells true s ts -> Derives LSum ts e ->
                     evalMath s = Returns (eval e))
  /\ (forall s ts e q, Spells true s ts -> Derives LSum ts e ->
                       denote e = Some q -> unrounded e = true ->
                       exists y, evalMath s = Returns y /\ num_is y q).
Proof.
  split; [exact evalMath_rejects | ].
  split; [exact evalMath_eval | ].
  intros s ts e q Hs Hd Hq U.
  exists (eval e); split; [exact (evalMath_eval Hs Hd) | ].
  apply eval_unrounded; [exact Hq | exact U].
Qed.

Lemma evalMath_arithmetic_witness :
  (exists c, In c (lit "alert(1)") /\ allowed_char c = false)
  /\ evalMath (lit "alert(1)") = Throws Bad
  /\ (exists ts e,
        Spells true (lit ".5+08*010") ts /\ Derives LSum ts e
        /\ eval e = Fin (129 # 2)
        /\ evalMath (lit ".5+08*010") = Returns (eval e))
  /\ exists ts e,
       Spells true (lit "1+2*3") ts /\ Derives LSum ts e
       /\ denote e = Some 7 /\ unrounded e = true
       /\ exists y, evalMath (lit "1+2*3") = Returns y /\ num_is y 7.
Proof.
  assert (Hbad : exists c, In c (lit "alert(1)") /\ allowed_char c = false).
  { exists 97%N; split; [left; reflexivity | reflexivity]. }
  assert (Hs1 : Spells true (lit ".5+08*010")
                  [TNum (decimal_value [] [5%N]); TPlus;
                   TNum (int_reading true [0%N; 8%N]); TStar;
                   TNum (int_reading true [0%N; 1%N; 0%N])]).
  { apply (@S_frac true [5%N]);
      [split; [repeat constructor | discriminate] | reflexivity | ].
    apply S_plus; [reflexivity | ].
    apply (@S_int true [0%N; 8%N]);
      [split; [repeat constructor | discriminate] | reflexivity | ].
    apply S_star; [reflexivity | ].
    apply (@S_int true [0%N; 1%N; 0%N] []);
      [split; [repeat constructor | discriminate] | exact I | ].
    apply S_end. }
  assert (Hd1 : Derives LSum
                  [TNum (decimal_value [] [5%N]); TPlus;
                   TNum (int_reading true [0%N; 8%N]); TStar;
                   TNum (int_reading true [0%N; 1%N; 0%N])]
                  (EAdd (ENum (decimal_value [] [5%N]))
                        (EMul (ENum (int_reading true [0%N; 8%N]))
                              (ENum (int_reading true [0%N; 1%N; 0%N]))))).
  { apply (@D_add [TNum (decimal_value [] [5%N])] _
                  [TNum (int_reading true [0%N; 8%N]); TStar;
                   TNum (int_reading true [0%N; 1%N; 0%N])]).
    - apply D_product, D_unary, D_num.
    - apply (@D_mul [TNum (int_reading true [0%N; 8%N])] _
                    [TNum (int_reading true [0%N; 1%N; 0%N])]).
      + apply D_unary, D_num.
      + apply D_num. }
  assert (Hs2 : Spells true (lit "1+2*3")
                  [TNum (int_reading true [1%N]); TPlus;
                   TNum (int_reading true [2%N]); TStar;
                   TNum (int_reading true [3%N])]).
  { apply (@S_int true [1%N]);
      [split; [repeat constructor | discriminate] | reflexivity | ].
    apply S_plus; [reflexivity | ].
    apply (@S_int true [2%N]);
      [split; [repeat constructor | discriminate] | reflexivity | ].
    apply S_star; [reflexivity | ].
    apply (@S_int true [3%N] []);
      [split; [repeat constructor | discriminate] | exact I | ].
    apply S_end. }
  assert (Hd2 : Derives LSum
                  [TNum (int_reading true [1%N]); TPlus;
                   TNum (int_reading true [2%N]); TStar;
                   TNum (int_reading true [3%N])]
                  (EAdd (ENum (int_reading true [1%N]))
                        (EMul (ENum (int_reading true [2%N]))
                              (ENum (int_reading true [3%N]))))).
  { apply (@D_add [TNum (int_reading true [1%N])] _
                  [TNum (int_reading true [2%N]); TStar;
                   TNum (int_reading true [3%N])]).
    - apply D_product, D_unary, D_num.
    - apply (@D_mul [TNum (int_reading true [2%N])] _
                    [TNum (int_reading true [3%N])]).
      + apply D_unary, D_num.
      + apply D_num. }
  split; [exact Hbad | ].
  split; [exact (proj1 evalMath_arithmetic _ Hbad) | ].
  split.
  - eexists; eexists.
    split; [exact Hs1 | ].
    split; [exact Hd1 | ].
    split; [vm_compute; reflexivity | ].
    exact (proj1 (proj2 evalMath_arithmetic) _ _ _ Hs1 Hd1).
  - eexists; eexists.
    split; [exact Hs2 | ].
    split; [exact Hd2 | ].
    assert (Hq : denote (EAdd (ENum (int_reading true [1%N]))
                        (EMul (ENum (int_reading true [2%N]))
                              (ENum (int_reading true [3%N])))) = Some 7)
      by reflexivity.
    assert (Hu : unrounded (EAdd (ENum (int_reading true [1%N]))
                        (EMul (ENum (int_reading true [2%N]))
                              (ENum (int_reading true [3%N])))) = true)
      by (vm_compute; reflexivity).
    split; [exact Hq | ].
    split; [exact Hu | ].
    exact (proj2 (proj2 evalMath_arithmetic) _ _ _ _ Hs2 Hd2 Hq Hu).
Defined.

(* ------------------------------------------------------------------ *)
(** ** daysBetween *)

Lemma daysBetween_floor (a b : Z) :
  (day_ms * daysBetween a b <= a - b < day_ms * (daysBetween a b + 1))%Z.
Proof.
  unfold daysBetween, day_ms.
  pose proof (Z.div_mod (a - b) 86400000 ltac:(lia)) as E.
  pose proof (Z.mod_pos_bound (a - b) 86400000 ltac:(lia)) as B.
  lia.
Qed.



(* ------------------------------------------------------------------ *)
(** ** binary64: the error of [number] *)

Set Warnings "-inexact-float".

(** [number] and the operators agree with the primitive binary64
    arithmetic of Rocq on the values that matter below: decimal literals,
    the sum 0.1 + 0.2, the products by 100 that [addEntry] rounds, the
    threshold for three days, ties, subnormal values and both ends of
    the range. *)
Example number_is_binary64 :
  number (Fin (1 # 10)) = of_float 0.1
  /\ number (Fin (1005 # 1000)) = of_float 1.005
  /\ number (Fin (-1 # 8)) = of_float (-0.125)
  /\ number (Fin (9007199254740993 # 1)) = of_float 9007199254740992
  /\ number (Fin (9007199254740995 # 1)) = of_float 9007199254740996
  /\ number (Fin (49 # 10 ^ 325)) = of_float 4.9e-324
  /\ number (Fin (25 # 10 ^ 325)) = of_float 4.9e-324
  /\ number (Fin (24 # 10 ^ 325)) = of_float 0
  /\ number (Fin (- 24 # 10 ^ 325)) = of_float (-0)
  /\ number (Fin (22250738585072011 # 10 ^ 324))
     = of_float 2.2250738585072011e-308
  /\ number (Fin (17976931348623157 * 10 ^ 292 # 1))
     = of_float 1.7976931348623157e308
  /\ number (Fin (17976931348623159 * 10 ^ 292 # 1)) = of_float infinity
  /\ number (Fin (- (10 ^ 400) # 1)) = of_float neg_infinity.
Proof. vm_compute. repeat split; reflexivity. Qed.

Example operators_are_binary64 :
  plus (of_float 0.1) (of_float 0.2) = of_float (0.1 + 0.2)
  /\ minus (of_float 0.3) (of_float 0.1) = of_float (0.3 - 0.1)
  /\ times (of_float 1.005) (of_float 100) = of_float (1.005 * 100)
  /\ times (of_float 0.015) (of_float 100) = of_float (0.015 * 100)
  /\ over (of_float 750) (of_float 7) = of_float (750 / 7)
  /\ over (of_float 1) (of_float 3) = of_float (1 / 3)
  /\ over (of_float 1) (of_float 0) = of_float (1 / 0)
  /\ over (of_float 0) (of_float 0) = of_float (0 / 0)
  /\ over (of_float (-1)) (of_float 0) = of_float (-1 / 0)
  /\ times (of_float 1e200) (of_float 1e200) = of_float (1e200 * 1e200)
  /\ times (of_float 1e-200) (of_float 1e-200) = of_float (1e-200 * 1e-200)
  /\ times (of_float 1e-160) (of_float 1e-160) = of_float (1e-160 * 1e-160)
  /\ times (of_float (-1e-200)) (of_float 1e-200)
     = of_float (-1e-200 * 1e-200)
  /\ plus (of_float 1e308) (of_float 1e308) = of_float (1e308 + 1e308)
  /\ plus (of_float 9007199254740992) (of_float 1)
     = of_float (9007199254740992 + 1)
  /\ plus (of_float 9007199254740992) (of_float 3)
     = of_float (9007199254740992 + 3)
  /\ round2 (of_float 1.005) = of_float 1
  /\ round2 (of_float 0.015) = of_float 0.02
  /\ round2 (plus (of_float 100) (of_float (0.1 + 0.2))) = of_float 100.3.
Proof. vm_compute. repeat split; reflexivity. Qed.

Section Mantissa.

Local Open Scope Z_scope.

Lemma half_even_spec (N D : Z) :
  0 <= N -> 0 < D ->
  N / D <= half_even N D /\ Z.abs (2 * (half_even N D * D - N)) <= D.
Proof.
  intros HN HD; unfold half_even.
  pose proof (Z.div_mod N D ltac:(lia)) as E.
  pose proof (Z.mod_pos_bound N D HD) as B.
  set (q := N / D) in *; set (r := N mod D) in *.
  destruct (Z.compare_spec (2 * r) D); [destruct (Z.even q) | | ];
    split; nia.
Qed.

Lemma pow2_pos (x : Z) : 0 <= x -> 0 < 2 ^ x.
Proof. intros H; apply Z.pow_pos_nonneg; lia. Qed.

Lemma pow2_add (x y : Z) : 0 <= x -> 0 <= y -> 2 ^ (x + y) = 2 ^ x * 2 ^ y.
Proof. intros; apply Z.pow_add_r; assumption. Qed.

Lemma ge_pow_upper (n d : Z) :
  0 < n -> 0 < d -> ~ ge_pow n d (Z.log2 n - Z.log2 d + 1).
Proof.
  intros Hn Hd.
  pose proof (Z.log2_spec n Hn) as [_ Ua].
  pose proof (Z.log2_spec d Hd) as [Lb _].
  pose proof (Z.log2_nonneg n) as Na.
  pose proof (Z.log2_nonneg d) as Nb.
  set (a := Z.log2 n) in *; set (b := Z.log2 d) in *.
  unfold ge_pow; destruct (Z.leb_spec 0 (a - b + 1)) as [H | H]; intros G.
  - assert (E : 2 ^ Z.succ a = 2 ^ b * 2 ^ (a - b + 1))
      by (rewrite <- pow2_add by lia; f_equal; lia).
    pose proof (pow2_pos H) as P.
    rewrite E in Ua; nia.
  - assert (E : 2 ^ Z.succ a * 2 ^ (- (a - b + 1)) = 2 ^ b)
      by (rewrite <- pow2_add by lia; f_equal; lia).
    assert (P : 0 < 2 ^ (- (a - b + 1))) by (apply pow2_pos; lia).
    nia.
Qed.

Lemma ge_pow_lower (n d : Z) :
  0 < n -> 0 < d -> ge_pow n d (Z.log2 n - Z.log2 d - 1).
Proof.
  intros Hn Hd.
  pose proof (Z.log2_spec n Hn) as [La _].
  pose proof (Z.log2_spec d Hd) as [_ Ub].
  pose proof (Z.log2_nonneg n) as Na.
  pose proof (Z.log2_nonneg d) as Nb.
  set (a := Z.log2 n) in *; set (b := Z.log2 d) in *.
  unfold ge_pow; destruct (Z.leb_spec 0 (a - b - 1)) as [H | H].
  - assert (E : 2 ^ a = 2 ^ Z.succ b * 2 ^ (a - b - 1))
      by (rewrite <- pow2_add by lia; f_equal; lia).
    pose proof (pow2_pos H) as P.
    rewrite E in La; nia.
  - assert (E : 2 ^ a * 2 ^ (- (a - b - 1)) = 2 ^ Z.succ b)
      by (rewrite <- pow2_add by lia; f_equal; lia).
    assert (P : 0 < 2 ^ (- (a - b - 1))) by (apply pow2_pos; lia).
    nia.
Qed.

Lemma ilog2_spec (n d : Z) :
  0 < n -> 0 < d ->
  ge_pow n d (ilog2 n d) /\ ~ ge_pow n d (ilog2 n d + 1).
Proof.
  intros Hn Hd.
  pose proof (ge_pow_upper Hn Hd) as U.
  pose proof (ge_pow_lower Hn Hd) as L.
  unfold ilog2; set (k := Z.log2 n - Z.log2 d) in *.
  assert (R : (if 0 <=? k then d * 2 ^ k <=? n else d <=? n * 2 ^ (- k))
              = true <-> ge_pow n d k).
  { unfold ge_pow; destruct (0 <=? k); apply Z.leb_le. }
  destruct (if 0 <=? k then d * 2 ^ k <=? n else d <=? n * 2 ^ (- k)).
  - split; [apply R; reflexivity | exact U].
  - split; [exact L | ].
    replace (k - 1 + 1) with k by lia.
    intros G; apply R in G; discriminate.
Qed.

Lemma nearest_spec (n d : Z) :
  0 < n -> 0 < d -> n < d * 2 ^ 53 -> d <= n * 2 ^ 1022 ->
  exists m E,
    0 <= E <= 1074
    /\ nearest n d = Some (m, - E)
    /\ d * 2 ^ 52 <= n * 2 ^ E
    /\ 2 ^ 52 <= m
    /\ Z.abs (2 * (m * d - n * 2 ^ E)) <= d.
Proof.
  intros Hn Hd Hu Hl.
  destruct (ilog2_spec Hn Hd) as [G U].
  unfold nearest; set (K := ilog2 n d) in *.
  assert (K52 : K <= 52).
  { destruct (Z.le_gt_cases K 52) as [H | H]; [exact H | exfalso].
    unfold ge_pow in G; destruct (Z.leb_spec 0 K) as [_ | H0]; [ | lia].
    assert (P : 2 ^ 53 <= 2 ^ K) by (apply Z.pow_le_mono_r; lia).
    nia. }
  assert (K1022 : - 1022 <= K).
  { destruct (Z.le_gt_cases (- 1022) K) as [H | H]; [exact H | exfalso].
    apply U; unfold ge_pow.
    destruct (Z.leb_spec 0 (K + 1)) as [H0 | _]; [lia | ].
    assert (P : 2 ^ 1022 <= 2 ^ (- (K + 1)))
      by (apply Z.pow_le_mono_r; lia).
    nia. }
  set (E := 52 - K).
  assert (HE : 0 <= E <= 1074) by (unfold E; lia).
  replace (Z.max (K - 52) (- 1074)) with (- E) by (unfold E; lia).
  assert (PE : 0 < 2 ^ E) by (apply pow2_pos; lia).
  assert (HN : d * 2 ^ 52 <= n * 2 ^ E).
  { unfold ge_pow in G; destruct (Z.leb_spec 0 K) as [H0 | H0].
    - assert (X : 2 ^ 52 = 2 ^ K * 2 ^ E)
        by (rewrite <- pow2_add by lia; f_equal; unfold E; lia).
      rewrite X; nia.
    - assert (X : 2 ^ E = 2 ^ (- K) * 2 ^ 52)
        by (rewrite <- pow2_add by lia; f_equal; unfold E; lia).
      rewrite X; nia. }
  assert (Hm : (if 0 <=? - E then half_even n (d * 2 ^ (- E))
                else half_even (n * 2 ^ (- - E)) d)
               = half_even (n * 2 ^ E) d).
  { destruct (Z.leb_spec 0 (- E)) as [H0 | H0].
    - assert (E0 : E = 0) by lia.
      rewrite E0; change (2 ^ (- 0)) with 1; change (2 ^ 0) with 1.
      rewrite !Z.mul_1_r; reflexivity.
    - rewrite Z.opp_involutive; reflexivity. }
  rewrite Hm.
  destruct (@half_even_spec (n * 2 ^ E) d ltac:(nia) Hd) as [Hq Ha].
  exists (half_even (n * 2 ^ E) d), E.
  split; [exact HE | ].
  split.
  - destruct (Z.ltb_spec 971 (- E)) as [H | _]; [lia | ].
    destruct (Z.eqb_spec (- E) 971) as [H | _]; [lia | ].
    reflexivity.
  - split; [exact HN | split; [ | exact Ha]].
    apply Z.le_trans with (n * 2 ^ E / d); [ | exact Hq].
    apply Z.div_le_lower_bound; [exact Hd | exact HN].
Qed.

End Mantissa.

Lemma Qred_inject_Z (z : Z) : Qred (inject_Z z) = inject_Z z.
Proof.
  unfold Qred, inject_Z.
  pose proof (Z.ggcd_gcd z 1) as G.
  pose proof (Z.ggcd_correct_divisors z 1) as D.
  destruct (Z.ggcd z 1) as (g, (r1, r2)); cbn [fst snd] in *.
  rewrite Z.gcd_1_r in G; subst g; destruct D as [D1 D2].
  rewrite Z.mul_1_l in D1, D2; subst r1 r2; reflexivity.
Qed.

Lemma dyadic_value (m E : Z) :
  (0 <= E)%Z ->
  dyadic m (- E) == m # Z.to_pos (2 ^ E)
  /\ Qred (dyadic m (- E)) = dyadic m (- E).
Proof.
  intros HE; unfold dyadic.
  destruct (Z.leb_spec 0 (- E)) as [H | H].
  - assert (E0 : E = 0%Z) by lia.
    rewrite E0; change (2 ^ (- 0))%Z with 1%Z; change (2 ^ 0)%Z with 1%Z.
    rewrite Z.mul_1_r; split; [reflexivity | apply Qred_inject_Z].
  - rewrite Z.opp_involutive.
    split; [apply Qred_correct | apply Qred_complete, Qred_correct].
Qed.

Lemma dyadic_opp (m e : Z) : dyadic (- m) e = - dyadic m e.
Proof.
  unfold dyadic; destruct (0 <=? e)%Z.
  - rewrite Z.mul_opp_l; reflexivity.
  - rewrite <- Qred_opp; reflexivity.
Qed.

(** The mantissa and the exponent that [number] chooses for a value
    between 2 ^ -53 and 2 ^ 53, and for its opposite. *)
Lemma number_mantissa (n : Z) (dp : positive) :
  eps <= n # dp -> n # dp < two53 ->
  exists m E,
    (0 <= E)%Z
    /\ number (Fin (n # dp)) = Fin (dyadic m (- E))
    /\ number (Fin (- n # dp)) = Fin (dyadic (- m) (- E))
    /\ (Zpos dp * 2 ^ 52 <= n * 2 ^ E)%Z
    /\ (Z.abs (2 * (m * Zpos dp - n * 2 ^ E)) <= Zpos dp)%Z.
Proof.
  intros Hl Hu.
  assert (Hl' : (Zpos dp <= n * 9007199254740992)%Z)
    by (unfold Qle, eps in Hl; cbn [Qnum Qden] in Hl; lia).
  assert (Hu' : (n < 9007199254740992 * Zpos dp)%Z)
    by (unfold Qlt, two53 in Hu; cbn [Qnum Qden] in Hu; lia).
  assert (Hn : (0 < n)%Z) by lia.
  destruct (@nearest_spec n (Zpos dp) Hn eq_refl)
    as (m & E & HE & Hnear & HN & Hm & Ha).
  - change (2 ^ 53)%Z with 9007199254740992%Z; lia.
  - assert (P : (2 ^ 53 <= 2 ^ 1022)%Z) by (apply Z.pow_le_mono_r; lia).
    change (2 ^ 53)%Z with 9007199254740992%Z in P; nia.
  - exists m, E.
    change (2 ^ 52)%Z with 4503599627370496%Z in Hm.
    split; [lia | ].
    unfold number; cbn [Qnum Qden].
    destruct (Z.eqb_spec n 0) as [H0 | _]; [lia | ].
    destruct (Z.eqb_spec (- n) 0) as [H0 | _]; [lia | ].
    rewrite Z.abs_opp, (Z.abs_eq n) by lia; rewrite Hnear.
    destruct (Z.eqb_spec m 0) as [H0 | _]; [lia | ].
    destruct (Z.ltb_spec n 0) as [H0 | _]; [lia | ].
    destruct (Z.ltb_spec (- n) 0) as [_ | H0]; [ | lia].
    auto.
Qed.

(** The relative error of [number] is at most 2 ^ -53. *)
Lemma number_pos (q : Q) :
  eps <= q -> q < two53 ->
  exists r,
    number (Fin q) = Fin r /\ number (Fin (- q)) = Fin (- r)
    /\ Qred r = r /\ q * below <= r /\ r <= q * above.
Proof.
  destruct q as [n dp]; intros Hl Hu.
  destruct (number_mantissa Hl Hu) as (m & E & HE & Hp & Hn & HN & Ha).
  destruct (@dyadic_value m E HE) as [Hv Hr].
  exists (dyadic m (- E)).
  split; [exact Hp | ].
  split; [rewrite <- dyadic_opp; exact Hn | ].
  split; [exact Hr | ].
  rewrite Hv.
  assert (PE : (0 < 2 ^ E)%Z) by (apply pow2_pos; lia).
  unfold Qle, Qmult, below, above; cbn [Qnum Qden].
  rewrite !Pos2Z.inj_mul, Z2Pos.id by exact PE.
  change (2 ^ 52)%Z with 4503599627370496%Z in HN.
  set (P := (2 ^ E)%Z) in *; set (d := Zpos dp) in *.
  clear Hl Hu Hp Hn Hv Hr.
  split; lia.
Qed.

(** Integers below 2 ^ 53 are binary64 values. *)
Lemma number_int (z : Z) :
  (Z.abs z < 2 ^ 53)%Z -> number (Fin (inject_Z z)) = Fin (inject_Z z).
Proof.
  intros Hz.
  change (2 ^ 53)%Z with 9007199254740992%Z in Hz.
  assert (K : forall k, (0 < k < 9007199254740992)%Z ->
                number (Fin (inject_Z k)) = Fin (inject_Z k)
                /\ number (Fin (inject_Z (- k))) = Fin (inject_Z (- k))).
  { intros k Hk; unfold inject_Z.
    destruct (@number_mantissa k 1) as (m & E & HE & Hp & Hn & _ & Ha).
    - unfold Qle, eps; cbn [Qnum Qden]; lia.
    - unfold Qlt, two53; cbn [Qnum Qden]; lia.
    - assert (PE : (0 < 2 ^ E)%Z) by (apply pow2_pos; lia).
      assert (Em : m = (k * 2 ^ E)%Z) by lia.
      destruct (@dyadic_value m E HE) as [Hv Hr].
      assert (Ed : dyadic m (- E) = k # 1).
      { rewrite <- Hr; change (k # 1) with (inject_Z k).
        rewrite <- (Qred_inject_Z k); apply Qred_complete.
        rewrite Hv, Em; unfold Qeq, inject_Z; cbn [Qnum Qden].
        rewrite Z2Pos.id by exact PE; lia. }
      rewrite Hp, Hn, dyadic_opp, Ed; split; reflexivity. }
  destruct (Z.lt_trichotomy z 0) as [H | [-> | H]].
  - replace z with (- - z)%Z by lia; apply K; lia.
  - reflexivity.
  - apply K; lia.
Qed.

Lemma is_zero_false (q : Q) : ~ q == 0 -> is_zero q = false.
Proof.
  intros H; destruct (is_zero q) eqn:E; [ | reflexivity].
  apply is_zero_spec in E; contradiction.
Qed.

Lemma Qopp_opp (q : Q) : - - q = q.
Proof. destruct q as [n d]; unfold Qopp; cbn [Qnum Qden]; f_equal; lia. Qed.

(** The same for a value of either sign. *)
Lemma number_near (q : Q) :
  (eps <= q /\ q < two53) \/ (eps <= - q /\ - q < two53) ->
  exists r,
    number (Fin q) = Fin r /\ Qred r = r
    /\ ((0 < q /\ q * below <= r /\ r <= q * above)
        \/ (q < 0 /\ q * above <= r /\ r <= q * below)).
Proof.
  intros [[Hl Hu] | [Hl Hu]].
  - destruct (number_pos Hl Hu) as (r & Hp & _ & Hr & B1 & B2).
    exists r; split; [exact Hp | split; [exact Hr | left]].
    unfold eps in Hl; split; [lra | split; assumption].
  - destruct (number_pos Hl Hu) as (r & _ & Hn & Hr & B1 & B2).
    rewrite Qopp_opp in Hn.
    exists (- r); split; [exact Hn | split].
    + rewrite Qred_opp, Hr; reflexivity.
    + right; unfold eps in Hl; unfold below, above in *.
      split; [lra | split; lra].
Qed.

(** [Math.floor(x / d)] on integers below 2 ^ 53 is the integer
    quotient: the rounding of the division never reaches the next
    integer. *)
Lemma quotient_floor (x D : Z) :
  (Z.abs x < 2 ^ 53)%Z -> (0 < D < 2 ^ 53)%Z ->
  floor (over (Fin (inject_Z x)) (Fin (inject_Z D)))
  = Fin (inject_Z (x / D)).
Proof.
  change (2 ^ 53)%Z with 9007199254740992%Z; intros Hx HD.
  assert (PD : 0 < inject_Z D) by (rewrite <- (Zlt_Qlt 0); lia).
  assert (ND : ~ inject_Z D == 0) by lra.
  assert (SD : is_neg (inject_Z D) = false)
    by (unfold is_neg; cbn [inject_Z Qnum]; apply Z.ltb_ge; lia).
  unfold over, div; cbn [magn signbit].
  rewrite (is_zero_false ND), SD.
  destruct (Z.eq_dec x 0) as [-> | N0].
  { rewrite Z.div_0_l by lia; reflexivity. }
  assert (NX : ~ inject_Z x == 0).
  { intros E; apply N0; unfold Qeq in E; cbn [inject_Z Qnum Qden] in E; lia. }
  rewrite (is_zero_false NX); unfold fin.
  pose proof (Z.div_mod x D ltac:(lia)) as Edm.
  pose proof (Z.mod_pos_bound x D ltac:(lia)) as Bm.
  set (k := (x / D)%Z) in *; set (rho := (x mod D)%Z) in *.
  assert (EX : inject_Z x == inject_Z D * inject_Z k + inject_Z rho)
    by (rewrite <- inject_Z_mult, <- inject_Z_plus, <- Edm; reflexivity).
  set (q := Qred (inject_Z x / inject_Z D)).
  assert (Eq : q * inject_Z D == inject_Z x).
  { unfold q; rewrite Qred_correct; field; exact ND. }
  assert (BX : - two53 < inject_Z x /\ inject_Z x < two53).
  { unfold two53; change 9007199254740992 with (inject_Z 9007199254740992).
    change (- inject_Z 9007199254740992)
      with (inject_Z (- 9007199254740992)).
    rewrite <- !Zlt_Qlt; lia. }
  destruct (Z.eq_dec rho 0) as [R0 | R0].
  - assert (Ek : q = inject_Z k).
    { unfold q; rewrite <- (Qred_inject_Z k); apply Qred_complete.
      rewrite EX, R0; field; exact ND. }
    rewrite Ek, number_int; [cbn [floor]; rewrite Qfloor_Z; reflexivity | ].
    change (2 ^ 53)%Z with 9007199254740992%Z; nia.
  - assert (Brho : 1 <= inject_Z rho /\ inject_Z rho + 1 <= inject_Z D).
    { change 1 with (inject_Z 1); rewrite <- inject_Z_plus.
      rewrite <- !Zle_Qle; lia. }
    assert (BD : inject_Z D < two53).
    { unfold two53; change 9007199254740992 with (inject_Z 9007199254740992).
      rewrite <- Zlt_Qlt; lia. }
    destruct (@number_near q) as (r & Hr & _ & B).
    { destruct (Z.lt_trichotomy x 0) as [H | [H | H]]; [right | lia | left].
      - assert (XN : inject_Z x <= - 1)
          by (change (- 1) with (inject_Z (- 1)); rewrite <- Zle_Qle; lia).
        split.
        + apply (Qmult_le_r _ _ (inject_Z D) PD).
          setoid_replace (- q * inject_Z D) with (- inject_Z x)
            by (rewrite <- Eq; ring).
          unfold eps, two53 in *; lra.
        + apply (Qmult_lt_r _ _ (inject_Z D) PD).
          setoid_replace (- q * inject_Z D) with (- inject_Z x)
            by (rewrite <- Eq; ring).
          unfold eps, two53 in *; nra.
      - assert (XN : 1 <= inject_Z x)
          by (change 1 with (inject_Z 1); rewrite <- Zle_Qle; lia).
        split.
        + apply (Qmult_le_r _ _ (inject_Z D) PD).
          rewrite Eq; unfold eps, two53 in *; lra.
        + apply (Qmult_lt_r _ _ (inject_Z D) PD).
          rewrite Eq; unfold eps, two53 in *; nra. }
    rewrite Hr; cbn [floor]; f_equal; f_equal.
    apply Qfloor_unique.
    + apply (Qmult_le_r _ _ (inject_Z D) PD).
      unfold below, above, two53 in *.
      destruct B as [(Hs & B1 & B2) | (Hs & B1 & B2)].
      * apply (Qmult_le_r _ _ (inject_Z D) PD) in B1.
        setoid_replace (q * (9007199254740991 # 9007199254740992)
                        * inject_Z D)
          with (inject_Z x * (9007199254740991 # 9007199254740992)) in B1
          by (rewrite <- Eq; ring).
        lra.
      * apply (Qmult_le_r _ _ (inject_Z D) PD) in B1.
        setoid_replace (q * (9007199254740993 # 9007199254740992)
                        * inject_Z D)
          with (inject_Z x * (9007199254740993 # 9007199254740992)) in B1
          by (rewrite <- Eq; ring).
        lra.
    + apply (Qmult_lt_r _ _ (inject_Z D) PD).
      rewrite inject_Z_plus; change (inject_Z 1) with 1.
      unfold below, above, two53 in *.
      destruct B as [(Hs & B1 & B2) | (Hs & B1 & B2)].
      * apply (Qmult_le_r _ _ (inject_Z D) PD) in B2.
        setoid_replace (q * (9007199254740993 # 9007199254740992)
                        * inject_Z D)
          with (inject_Z x * (9007199254740993 # 9007199254740992)) in B2
          by (rewrite <- Eq; ring).
        lra.
      * apply (Qmult_le_r _ _ (inject_Z D) PD) in B2.
        setoid_replace (q * (9007199254740991 # 9007199254740992)
                        * inject_Z D)
          with (inject_Z x * (9007199254740991 # 9007199254740992)) in B2
          by (rewrite <- Eq; ring).
        lra.
Qed.

(* ------------------------------------------------------------------ *)
(** ** render *)

Lemma fin_inject_Z (q : Q) (z : Z) : q == inject_Z z -> fin q = Fin (inject_Z z).
Proof.
  intros H; unfold fin.
  rewrite (Qred_complete _ _ H), Qred_inject_Z; reflexivity.
Qed.

Lemma minus_int (a b : Z) :
  (Z.abs (a - b) < 2 ^ 53)%Z ->
  minus (Fin (inject_Z a)) (Fin (inject_Z b)) = Fin (inject_Z (a - b)).
Proof.
  intros H; unfold minus, sub, neg.
  assert (E : inject_Z (a - b) == inject_Z a - inject_Z b)
    by (unfold Z.sub, Qminus; rewrite inject_Z_plus, inject_Z_opp;
        reflexivity).
  destruct (is_zero (inject_Z b)) eqn:Eb; cbn [add].
  - apply is_zero_spec in Eb.
    rewrite (@fin_inject_Z (inject_Z a) (a - b)); [exact (number_int _ H) | ].
    rewrite E, Eb; ring.
  - unfold fin at 1; cbn [add].
    rewrite (@fin_inject_Z _ (a - b)); [exact (number_int _ H) | ].
    rewrite Qred_correct, E; ring.
Qed.

Lemma plus_int (a b : Z) :
  (Z.abs (a + b) < 2 ^ 53)%Z ->
  plus (Fin (inject_Z a)) (Fin (inject_Z b)) = Fin (inject_Z (a + b)).
Proof.
  intros H; unfold plus; cbn [add].
  rewrite (@fin_inject_Z _ (a + b)); [exact (number_int _ H) | ].
  rewrite inject_Z_plus; reflexivity.
Qed.

(** On two valid dates less than 2 ^ 53 milliseconds apart, the
    evaluation in binary64 gives the exact number of whole days. *)
Lemma days_between_exact (a b : Z) :
  (Z.abs (a - b) < 2 ^ 53)%Z ->
  days_between (Some a) (Some b) = Fin (inject_Z (daysBetween a b)).
Proof.
  intros H; unfold days_between, time.
  rewrite (minus_int _ _ H).
  apply quotient_floor; [exact H | ].
  change (2 ^ 53)%Z with 9007199254740992%Z; unfold day_ms; lia.
Qed.

Lemma leb_int (a b : Z) :
  leb (Fin (inject_Z a)) (Fin (inject_Z b)) = (a <=? b)%Z.
Proof.
  unfold leb, value; apply eq_true_iff_eq.
  rewrite Qle_bool_iff, <- Zle_Qle, Z.leb_le; reflexivity.
Qed.

Lemma max0_int (z : Z) : max0 (Fin (inject_Z z)) = Fin (inject_Z (Z.max 0 z)).
Proof.
  unfold max0; change (Fin 0) with (Fin (inject_Z 0)); rewrite leb_int.
  destruct (Z.leb_spec z 0).
  - replace (Z.max 0 z) with 0%Z by lia; reflexivity.
  - replace (Z.max 0 z) with z by lia; reflexivity.
Qed.

Lemma gtb_int (z : Z) : gtb (Fin (inject_Z z)) (Fin 0) = (0 <? z)%Z.
Proof.
  unfold gtb; change (Fin 0) with (Fin (inject_Z 0)); rewrite leb_int.
  destruct (Z.leb_spec z 0), (Z.ltb_spec 0 z); reflexivity || lia.
Qed.

Lemma daysLeft_exact (expiry today : Z) :
  (Z.abs (expiry - today) < 2 ^ 53)%Z ->
  daysLeft (Some expiry) (Some today)
  = Fin (inject_Z (Z.max 0 (daysBetween expiry today + 1))).
Proof.
  intros H; unfold daysLeft.
  rewrite (days_between_exact _ _ H).
  change (Fin 1) with (Fin (inject_Z 1)).
  rewrite plus_int; [apply max0_int | ].
  pose proof (daysBetween_floor expiry today) as B; unfold day_ms in B.
  change (2 ^ 53)%Z with 9007199254740992%Z in *; lia.
Qed.

Lemma daysLeft_invalid (d : date) :
  daysLeft None d = NaN /\ daysLeft d None = NaN.
Proof. destruct d as [z | ]; split; reflexivity. Qed.

(** X3: for an expiry date and a date of today that are valid and less
    than 2 ^ 53 milliseconds apart, the number of days left that
    [render] computes in binary64 is the exact one: the whole days from
    today to the expiry plus one, and never below zero; the period is
    shown as expired exactly when the expiry date lies before today.
    With an Invalid Date (a state without expiry) the number of days is
    NaN and the period is shown as expired. *)
Theorem expired_iff_before_today (today expiry : Z) (safe : num) :
  (Z.abs (expiry - today) < 2 ^ 53)%Z ->
  daysLeft (Some expiry) (Some today)
  = Fin (inject_Z (Z.max 0 (daysBetween expiry today + 1)))
  /\ (expiry_info (daysLeft (Some expiry) (Some today)) safe = Expired
      <-> (expiry < today)%Z)
  /\ (forall d, expiry_info (daysLeft None d) safe = Expired
                /\ expiry_info (daysLeft d None) safe = Expired).
Proof.
  intros H; rewrite (daysLeft_exact _ _ H).
  split; [reflexivity | split].
  - unfold expiry_info; rewrite gtb_int.
    pose proof (daysBetween_floor expiry today) as B; unfold day_ms in B.
    destruct (Z.ltb_spec 0 (Z.max 0 (daysBetween expiry today + 1)));
      split; intros H'; try discriminate; try reflexivity; lia.
  - intros d; destruct (daysLeft_invalid d) as [-> ->].
    split; reflexivity.
Qed.

Lemma expired_iff_before_today_witness :
  (Z.abs (1704067200000 - 1704153600000) < 2 ^ 53)%Z
  /\ (1704067200000 < 1704153600000)%Z
  /\ expiry_info (daysLeft (Some 1704067200000%Z) (Some 1704153600000%Z))
       (Fin 10) = Expired
  /\ daysLeft (Some 1704844800000%Z) (Some 1704153600000%Z) = Fin 9.
Proof.
  assert (B : (Z.abs (1704067200000 - 1704153600000) < 2 ^ 53)%Z)
    by (vm_compute; reflexivity).
  split; [exact B | split; [lia | split]].
  - apply (proj1 (proj2 (@expired_iff_before_today 1704153600000%Z
                           1704067200000%Z (Fin 10) B))); lia.
  - etransitivity.
    + apply (@expired_iff_before_today 1704153600000%Z 1704844800000%Z
               (Fin 10)).
      vm_compute; reflexivity.
    + reflexivity.
Defined.

Lemma Qle_bool_false (a b : Q) : Qle_bool a b = false -> b < a.
Proof.
  intros H; apply Qnot_le_lt; intros L.
  apply Qle_bool_iff in L; rewrite L in H; discriminate.
Qed.

(** The threshold is the binary64 quotient of 250 times the days by 7:
    within 2 ^ -53, relatively, of the exact quotient. *)
Lemma threshold_value (days : Z) :
  (0 <= days)%Z -> (250 * days < 2 ^ 53)%Z ->
  exists p,
    threshold (Fin (inject_Z days)) = Fin p
    /\ inject_Z days * 250 / 7 * below <= p
    /\ p <= inject_Z days * 250 / 7 * above.
Proof.
  intros H0 Hb; change (2 ^ 53)%Z with 9007199254740992%Z in Hb.
  destruct (Z.eq_dec days 0) as [-> | N0].
  { exists 0; split; [reflexivity | split; vm_compute; discriminate]. }
  assert (Pd : 1 <= inject_Z days)
    by (change 1 with (inject_Z 1); rewrite <- Zle_Qle; lia).
  assert (Ud : inject_Z days * 250 < two53).
  { unfold two53; change 250 with (inject_Z 250).
    change 9007199254740992 with (inject_Z 9007199254740992).
    rewrite <- inject_Z_mult, <- Zlt_Qlt; lia. }
  unfold threshold, times, mul; cbn [magn signbit].
  rewrite (@is_zero_false (inject_Z days)) by lra.
  change (is_zero 250) with false; cbv iota.
  rewrite (@fin_inject_Z _ (days * 250))
    by (rewrite inject_Z_mult; reflexivity).
  rewrite number_int
    by (change (2 ^ 53)%Z with 9007199254740992%Z; lia).
  unfold over, div; cbn [magn signbit].
  assert (E : inject_Z (days * 250) == inject_Z days * 250)
    by (rewrite inject_Z_mult; reflexivity).
  rewrite (@is_zero_false (inject_Z (days * 250))) by (rewrite E; lra).
  change (is_zero 7) with false; cbv iota; unfold fin.
  set (q := Qred (inject_Z (days * 250) / 7)).
  assert (Eq : q == inject_Z days * 250 / 7)
    by (unfold q; rewrite Qred_correct, E; reflexivity).
  assert (E7 : inject_Z days * 250 / 7 == inject_Z days * (250 # 7))
    by field.
  destruct (@number_pos q) as (r & Hr & _ & _ & B1 & B2).
  - rewrite Eq, E7; unfold eps; lra.
  - rewrite Eq, E7; unfold two53 in *; lra.
  - exists r; split; [exact Hr | ].
    rewrite <- Eq; split; assumption.
Qed.

(** X4: the colour of the balance, for a number of days whose product by
    250 is below 2 ^ 53.  The threshold is the binary64 value of
    250 * days / 7; the balance is green from the threshold upwards,
    yellow from the threshold minus 50 (in binary64) up to the
    threshold, and red otherwise; the upper bound of the yellow test
    ([balance <= threshold + 50]) never decides.  With a number of days
    that is NaN (an Invalid Date) the colour is red. *)
Theorem balance_colour_bands (b : num) (days : Z) :
  (0 <= days)%Z -> (250 * days < 2 ^ 53)%Z ->
  (exists p,
     threshold (Fin (inject_Z days)) = Fin p
     /\ inject_Z days * 250 / 7 * below <= p
     /\ p <= inject_Z days * 250 / 7 * above)
  /\ balance_colour b (Fin (inject_Z days))
     = (if geb b (threshold (Fin (inject_Z days))) then Green
        else if geb b (minus (threshold (Fin (inject_Z days))) (Fin 50))
             then Yellow
        else Red)
  /\ balance_colour b NaN = Red.
Proof.
  intros H0 Hb.
  destruct (threshold_value H0 Hb) as (p & Ht & B1 & B2).
  split; [exists p; auto | ].
  split; [ | destruct b; reflexivity].
  unfold balance_colour; cbv zeta; rewrite Ht.
  destruct (geb b (Fin p)) eqn:G1; [reflexivity | ].
  destruct (geb b (minus (Fin p) (Fin 50))) eqn:G2; [ | reflexivity].
  cbn [andb].
  change (2 ^ 53)%Z with 9007199254740992%Z in Hb.
  assert (Ud : inject_Z days * 250 < two53).
  { unfold two53; change 250 with (inject_Z 250).
    change 9007199254740992 with (inject_Z 9007199254740992).
    rewrite <- inject_Z_mult, <- Zlt_Qlt; lia. }
  assert (Pd : 0 <= inject_Z days)
    by (change 0 with (inject_Z 0); rewrite <- Zle_Qle; lia).
  assert (E7 : inject_Z days * 250 / 7 == inject_Z days * (250 # 7))
    by field.
  rewrite E7 in B1, B2.
  unfold below, above, two53 in *.
  assert (P0 : 0 <= p) by lra.
  assert (P1 : p < 9007199254740992 - 50) by lra.
  unfold plus; cbn [add]; unfold fin.
  set (q := Qred (p + 50)).
  assert (Eq : q == p + 50) by (unfold q; apply Qred_correct).
  destruct (@number_pos q) as (r & Hr & _ & _ & B3 & _).
  { rewrite Eq; unfold eps; lra. }
  { rewrite Eq; unfold two53; lra. }
  rewrite Hr.
  assert (Hpr : p <= r) by (unfold below in B3; rewrite Eq in B3; lra).
  unfold geb in G1, G2.
  assert (L : leb b (Fin r) = true).
  { destruct b as [v | | | | ].
    - unfold leb, value in G1 |- *; apply Qle_bool_iff.
      apply Qle_bool_false in G1; lra.
    - unfold leb, value in G1 |- *; apply Qle_bool_iff.
      apply Qle_bool_false in G1; lra.
    - discriminate G1.
    - reflexivity.
    - destruct (minus (Fin p) (Fin 50)); discriminate G2. }
  rewrite L; reflexivity.
Qed.

Lemma balance_colour_bands_witness :
  (0 <= 3)%Z /\ (250 * 3 < 2 ^ 53)%Z
  /\ threshold (Fin (inject_Z 3)) = number (Fin (750 # 7))
  /\ balance_colour (number (Fin (750 # 7))) (Fin (inject_Z 3)) = Green
  /\ balance_colour (Fin 100) (Fin (inject_Z 3)) = Yellow
  /\ balance_colour (Fin 57) (Fin (inject_Z 3)) = Red.
Proof.
  assert (B : (250 * 3 < 2 ^ 53)%Z) by (vm_compute; reflexivity).
  split; [lia | split; [exact B | split; [vm_compute; reflexivity | ]]].
  split; [ | split].
  - etransitivity.
    + apply (@balance_colour_bands (number (Fin (750 # 7))) 3); [lia | exact B].
    + vm_compute; reflexivity.
  - etransitivity.
    + apply (@balance_colour_bands (Fin 100) 3); [lia | exact B].
    + vm_compute; reflexivity.
  - etransitivity.
    + apply (@balance_colour_bands (Fin 57) 3); [lia | exact B].
    + vm_compute; reflexivity.
Defined.




(** On a whole balance below 2 ^ 53 the quotient that [render] evaluates
    in binary64, [Math.floor(balance / daysLeft)], is the exact one. *)
Lemma dailySafe_binary64 (b d : Z) :
  (Z.abs b < 2 ^ 53)%Z -> (0 < d < 2 ^ 53)%Z ->
  floor (over (Fin (inject_Z b)) (Fin (inject_Z d)))
  = dailySafe (Fin (inject_Z b)) d.
Proof.
  intros Hb Hd; rewrite (@quotient_floor b d Hb Hd).
  unfold dailySafe.
  destruct (Z.eqb_spec d 0) as [E | _]; [lia | ].
  assert (ND : ~ inject_Z d == 0).
  { intros E; unfold Qeq in E; cbn [inject_Z Qnum Qden] in E; lia. }
  assert (SD : is_neg (inject_Z d) = false)
    by (unfold is_neg; cbn [inject_Z Qnum]; apply Z.ltb_ge; lia).
  unfold div; cbn [magn signbit]; rewrite (is_zero_false ND), SD.
  destruct (Z.eq_dec b 0) as [-> | N0].
  { rewrite Z.div_0_l by lia; reflexivity. }
  assert (NB : ~ inject_Z b == 0).
  { intros E; unfold Qeq in E; cbn [inject_Z Qnum Qden] in E; lia. }
  rewrite (is_zero_false NB); unfold fin; cbn [floor].
  rewrite (Qfloor_comp _ _ (Qred_correct _)), <- Zdiv_Qdiv; reflexivity.
Qed.

Lemma shown_all (l : list jsval) : (length l <= 100)%nat -> shown l = rev l.
Proof.
  intros H; unfold shown.
  replace (length l - 100)%nat with 0%nat by lia; reflexivity.
Qed.

Lemma shown_snoc (l : list jsval) (h : jsval) :
  exists r, shown (l ++ [h]) = h :: r.
Proof.
  unfold shown.
  assert (K : (length (l ++ [h]) - 100 <= length l)%nat)
    by (rewrite length_app; simpl; lia).
  rewrite skipn_app.
  replace (length (l ++ [h]) - 100 - length l)%nat with 0%nat by lia.
  cbn [skipn]; rewrite rev_app_distr; cbn [rev app].
  eexists; reflexivity.
Qed.

(** X6: the history list shows at most the last 100 entries, the newest
    first: a history of up to 100 entries is shown whole in reverse, the
    shown list never has more than 100 entries, and its first element is
    the last entry added. *)
Theorem shown_newest_first (l : list jsval) (h : jsval) :
  ((length l <= 100)%nat -> shown l = rev l)
  /\ length (shown l) = Nat.min 100 (length l)
  /\ exists r, shown (l ++ [h]) = h :: r.
Proof.
  split; [apply shown_all | split; [ | apply shown_snoc]].
  unfold shown; rewrite length_rev, length_skipn; lia.
Qed.

Lemma shown_newest_first_witness :
  let e1 := entry 1 (lit "+100") (lit "Initial") (Fin 100) (Fin 100) in
  let e2 := entry 2 (lit "+50+25") (lit "Bonus") (Fin 75) (Fin 175) in
  history_of t2 = VArr [e1; e2]
  /\ (length [e1; e2] <= 100)%nat
  /\ shown [e1; e2] = [e2; e1]
  /\ length (shown (repeat e1 150)) = 100%nat
  /\ exists r, shown (repeat e1 150 ++ [e2]) = e2 :: r.
Proof.
  cbv zeta.
  split; [vm_compute; reflexivity | ].
  split; [simpl; lia | ].
  split.
  { etransitivity.
    - apply (proj1 (@shown_newest_first
                      [entry 1 (lit "+100") (lit "Initial") (Fin 100)
                         (Fin 100);
                       entry 2 (lit "+50+25") (lit "Bonus") (Fin 75)
                         (Fin 175)] VNull)); simpl; lia.
    - reflexivity. }
  split.
  { etransitivity.
    - apply (proj1 (proj2 (@shown_newest_first
                             (repeat (entry 1 (lit "+100") (lit "Initial")
                                        (Fin 100) (Fin 100)) 150) VNull))).
    - rewrite repeat_length; reflexivity. }
  exact (proj2 (proj2 (@shown_newest_first
                         (repeat (entry 1 (lit "+100") (lit "Initial")
                                    (Fin 100) (Fin 100)) 150)
                         (entry 2 (lit "+50+25") (lit "Bonus") (Fin 75)
                            (Fin 175))))).
Defined.

(* ------------------------------------------------------------------ *)
(** ** updateExpiry and the expiry field *)

Lemma eqb_neq (k k' : str) : k <> k' -> Str.eqb k k' = false.
Proof.
  intros H; unfold Str.eqb.
  destruct (list_eq_dec N.eq_dec k k'); [contradiction | reflexivity].
Qed.

Lemma str_ltb_irrefl (a : str) : str_ltb a a = false.
Proof.
  induction a as [ | x r IH]; [reflexivity | ].
  cbn [str_ltb]; rewrite N.ltb_irrefl; exact IH.
Qed.

Lemma updateExpiry_object (date : str) (t : tracker)
  (fs : list (str * jsval)) :
  state t = VObj fs ->
  updateExpiry date t
  = (Returns tt,
     save (with_state t (VObj (assign k_expiry (VStr date) fs)))).
Proof. intros Hs; unfold updateExpiry; rewrite Hs; reflexivity. Qed.

(** X7: [updateExpiry] on a state object replaces the expiry by the given
    string, whatever it is, and leaves every other field (balance,
    history, version) as it was; of two updates in a row only the second
    shows in the state. *)
Theorem updateExpiry_replaces (d1 d2 : str) (t : tracker)
  (fs : list (str * jsval)) :
  state t = VObj fs ->
  let t1 := snd (updateExpiry d1 t) in
  fst (updateExpiry d1 t) = Returns tt
  /\ get k_expiry (state t1) = VStr d1
  /\ (forall k, k <> k_expiry -> get k (state t1) = get k (state t))
  /\ state (snd (updateExpiry d2 t1)) = state (snd (updateExpiry d2 t)).
Proof.
  intros Hs; cbv zeta.
  rewrite (updateExpiry_object d1 t Hs); cbn [fst snd].
  rewrite (updateExpiry_object d2 t Hs); cbn [fst snd].
  erewrite (updateExpiry_object d2); [ | rewrite state_save; reflexivity].
  cbn [snd]; rewrite !state_save.
  change (state (with_state ?x ?s)) with s.
  repeat split.
  - unfold get; rewrite assoc_assign_same; reflexivity.
  - intros k Hk; rewrite Hs; unfold get.
    rewrite assoc_assign_other by (apply eqb_neq; exact Hk); reflexivity.
  - rewrite assign_assign; reflexivity.
Qed.

Lemma updateExpiry_replaces_witness :
  state t1 = VObj [(k_version, VNum (Fin 1)); (k_balance, VNum (Fin 100));
                   (k_expiry, VStr today);
                   (k_history,
                    VArr [entry 1 (lit "+100") (lit "Initial")
                            (Fin 100) (Fin 100)])]
  /\ get k_expiry (state (snd (updateExpiry (lit "2024-02-01") t1)))
     = VStr (lit "2024-02-01")
  /\ balance_of (snd (updateExpiry (lit "2024-02-01") t1)) = balance_of t1.
Proof.
  split; [reflexivity | ].
  destruct (@updateExpiry_replaces (lit "2024-02-01") (lit "2024-03-01") t1
              _ eq_refl) as (_ & He & Hk & _).
  split; [exact He | ].
  apply Hk; discriminate.
Defined.

(** X8: the change handler of the expiry field never stores a date that
    compares below today's: a lower value (the empty string of a cleared
    field included) is replaced by today's date, any other value is
    stored as typed. *)
Theorem expiry_never_before_today (today value : str) (t : tracker)
  (fs : list (str * jsval)) :
  state t = VObj fs ->
  exists e,
    fst (on_expiry_change today today value t) = Returns tt
    /\ get k_expiry (state (snd (on_expiry_change today today value t)))
       = VStr e
    /\ str_ltb e today = false
    /\ e = (if str_ltb value today then today else value).
Proof.
  intros Hs; unfold on_expiry_change.
  exists (if str_ltb value today then today else value).
  rewrite (updateExpiry_object _ t Hs); cbn [fst snd].
  rewrite state_save; change (state (with_state ?x ?s)) with s.
  repeat split.
  - unfold get; rewrite assoc_assign_same; reflexivity.
  - destruct (str_ltb value today) eqn:E; [apply str_ltb_irrefl | exact E].
Qed.

Lemma expiry_never_before_today_witness :
  get k_expiry
    (state (snd (on_expiry_change today today (lit "2023-12-31") t1)))
  = VStr today
  /\ get k_expiry (state (snd (on_expiry_change today today [] t1)))
     = VStr today.
Proof.
  split.
  - destruct (@expiry_never_before_today today (lit "2023-12-31") t1 _
                eq_refl) as (e & _ & He & _ & Hv).
    rewrite He, Hv; reflexivity.
  - destruct (@expiry_never_before_today today [] t1 _ eq_refl)
      as (e & _ & He & _ & Hv).
    rewrite He, Hv; reflexivity.
Defined.

(* ------------------------------------------------------------------ *)
(** ** Persistence *)

Lemma synced_save (t : tracker) : synced (save t).
Proof.
  unfold synced, save; destruct (storage_of t) as [st | ] eqn:E; simpl.
  - reflexivity.
  - rewrite E; exact I.
Qed.

Lemma undo_returns_true (t t' : tracker) :
  undo t = (Returns true, t') -> exists t0, t' = save t0.
Proof.
  unfold undo.
  destruct (state t); try discriminate.
  destruct (get k_history (VObj fields)) as [ | | | | | l | ];
    try discriminate.
  destruct l as [ | h r]; [discriminate | ].
  destruct (recomputeBalance _) as [[u | e | ] t0]; try discriminate.
  intros H; injection H as <-; exists t0; reflexivity.
Qed.

Lemma importData_returns (txt : text) (t t' : tracker) :
  importData txt t = (Returns tt, t') -> exists t0, t' = save t0.
Proof.
  unfold importData.
  destruct (JSON_parse txt) as [data | e | ]; try discriminate.
  destruct data; try discriminate;
    match goal with
    | |- context [if ?c then _ else _] => destruct c; try discriminate
    end;
    intros H; injection H as <-; eexists; reflexivity.
Qed.

(** X9: every operation that succeeds writes the state through: after a
    successful [addEntry], [undo], [updateExpiry] or [importData] on a
    tracker with a storage, the storage holds the serialized form of the
    state the operation left. *)
Theorem success_is_persisted (t t' : tracker) :
  (forall now expr desc delta,
      addEntry now expr desc t = (Returns delta, t') -> synced t')
  /\ (undo t = (Returns true, t') -> synced t')
  /\ (forall date, updateExpiry date t = (Returns tt, t') -> synced t')
  /\ (forall txt, importData txt t = (Returns tt, t') -> synced t').
Proof.
  repeat split.
  - intros now expr desc delta H.
    destruct (addEntry_returns _ _ _ _ H) as (fs & b & l & _ & _ & _ & _ & ->).
    apply synced_save.
  - intros H; destruct (undo_returns_true _ H) as (t0 & ->).
    apply synced_save.
  - intros date; unfold updateExpiry.
    destruct (state t); try discriminate.
    intros H; injection H as <-; apply synced_save.
  - intros txt H; destruct (importData_returns _ _ H) as (t0 & ->).
    apply synced_save.
Qed.

Lemma success_is_persisted_witness :
  addEntry 1 (lit "100") (lit "Initial") fresh = (Returns (Fin 100), t1)
  /\ synced t1
  /\ undo t2 = (Returns true, t3)
  /\ synced t3.
Proof.
  assert (A : addEntry 1 (lit "100") (lit "Initial") fresh
              = (Returns (Fin 100), t1)) by (vm_compute; reflexivity).
  assert (U : undo t2 = (Returns true, t3)) by (vm_compute; reflexivity).
  split; [exact A | split; [ | split; [exact U | ]]].
  - exact (proj1 (success_is_persisted fresh t1) _ _ _ _ A).
  - exact (proj1 (proj2 (success_is_persisted t2 t3)) U).
Defined.

(** X10: a tracker started on the storage that another one keeps in sync
    resumes with the JSON image of that state (the same state when all
    its values are JSON values), provided the storage can be read. *)
Theorem restart_resumes (today : str) (t : tracker) (st : storage)
  (fs : list (str * jsval)) :
  synced t -> storage_of t = Some st -> get_throws st = false ->
  state t = VObj fs ->
  state (create today (storage_of t)) = jsonify (state t)
  /\ (jsonify (state t) = state t ->
      state (create today (storage_of t)) = state t).
Proof.
  intros Hsync Hst Hr Hs.
  assert (E : state (create today (storage_of t)) = jsonify (state t)).
  { unfold synced in Hsync; rewrite Hst in *.
    unfold create, load, getItem; cbn [state]; rewrite Hr, Hsync, Hs.
    reflexivity. }
  split; [exact E | intros Hj; rewrite E; exact Hj].
Qed.

Lemma restart_resumes_witness :
  synced t2
  /\ state (create (lit "2030-05-05") (storage_of t2)) = state t2.
Proof.
  assert (S2 : synced t2) by (vm_compute; reflexivity).
  split; [exact S2 | ].
  destruct (@restart_resumes (lit "2030-05-05") t2 _ _ S2 eq_refl eq_refl
              eq_refl) as (_ & H).
  apply H; vm_compute; reflexivity.
Defined.

(* ------------------------------------------------------------------ *)
(** ** Blank input and the stored expression *)

Lemma trim_start_blank (s : str) :
  forallb is_space s = true -> trim_start s = [].
Proof.
  induction s as [ | c r IH]; [reflexivity | ].
  cbn [forallb trim_start]; intros H; apply andb_true_iff in H.
  destruct H as [Hc Hr]; rewrite Hc; apply IH; exact Hr.
Qed.

Lemma trim_blank (s : str) : forallb is_space s = true -> trim s = [].
Proof. intros H; unfold trim; rewrite (trim_start_blank s H); reflexivity. Qed.

(** X11: an expression that is empty or consists of white space only is
    refused by [addEntry] with "Empty expression", without evaluation
    and without any change to the tracker. *)
Theorem addEntry_blank (now : Z) (expr desc : str) (t : tracker) :
  forallb is_space expr = true ->
  addEntry now expr desc t = (Throws (Error "Empty expression"), t).
Proof.
  intros H; unfold addEntry; rewrite (trim_blank expr H); reflexivity.
Qed.

Lemma addEntry_blank_witness :
  forallb is_space (lit "   ") = true
  /\ addEntry 5 (lit "   ") (lit "x") t1
     = (Throws (Error "Empty expression"), t1).
Proof.
  split; [reflexivity | ].
  apply (@addEntry_blank 5 (lit "   ") (lit "x") t1); reflexivity.
Defined.

Lemma lex_blank (s rest : str) (prev nl : bool) :
  forallb is_space s = true ->
  exists nl', lex 0 prev nl (s ++ rest) = lex 0 prev nl' rest.
Proof.
  revert nl; induction s as [ | c r IH]; intros nl H.
  - exists nl; reflexivity.
  - cbn [forallb] in H; apply andb_true_iff in H; destruct H as [Hc Hr].
    cbn [app lex]; rewrite Hc; apply IH; exact Hr.
Qed.

(** X12: a text of white space only passes the character test of
    [evalMath] and then fails in the evaluation: the call throws the
    host's error, not "bad". *)
Theorem evalMath_blank (s : str) :
  s <> [] -> forallb is_space s = true -> evalMath s = Throws HostError.
Proof.
  intros Hn Hs; unfold evalMath, allowed.
  assert (Ha : forallb allowed_char s = true).
  { rewrite forallb_forall in *; intros c Hc.
    apply allowed_space, Hs, Hc. }
  rewrite Ha; destruct s as [ | c r]; [contradiction | ].
  change (lit "(" ++ (c :: r) ++ lit ")") with (40%N :: (c :: r) ++ [41%N]).
  unfold run.
  destruct (@lex_blank _ [41%N] false false Hs) as (nl' & E).
  change (lex 0 false false (40%N :: (c :: r) ++ [41%N]))
    with (emit (false, TLParen) (lex 0 false false ((c :: r) ++ [41%N]))).
  rewrite E; reflexivity.
Qed.

Lemma evalMath_blank_witness :
  lit " " <> [] /\ forallb is_space (lit " ") = true
  /\ evalMath (lit " ") = Throws HostError.
Proof.
  split; [discriminate | split; [reflexivity | ]].
  apply (@evalMath_blank (lit " ")); [discriminate | reflexivity].
Defined.

Lemma trim_start_split (s : str) :
  exists sp, s = sp ++ trim_start s /\ forallb is_space sp = true.
Proof.
  induction s as [ | c r (sp & E & H)]; [exists []; split; reflexivity | ].
  cbn [trim_start]; destruct (is_space c) eqn:Ec.
  - exists (c :: sp); split.
    + cbn [app]; rewrite <- E; reflexivity.
    + cbn [forallb]; rewrite Ec, H; reflexivity.
  - exists []; split; reflexivity.
Qed.

Lemma trim_start_bare (s : str) : bare (trim_start s).
Proof.
  induction s as [ | c r IH]; [exact I | ].
  cbn [trim_start]; destruct (is_space c) eqn:Ec; [exact IH | exact Ec].
Qed.

Lemma trim_start_id (s : str) : bare s -> trim_start s = s.
Proof.
  destruct s as [ | c r]; [reflexivity | ].
  unfold bare; cbn [trim_start]; intros ->; reflexivity.
Qed.

Lemma bare_prefix (a b : str) : bare (a ++ b) -> a <> [] -> bare a.
Proof. destruct a; [contradiction | intros H _; exact H]. Qed.

Lemma bare_app (a b : str) : bare a -> a <> [] -> bare (a ++ b).
Proof. destruct a; [contradiction | intros H _; exact H]. Qed.

Lemma rev_not_nil (s : str) : s <> [] -> rev s <> [].
Proof.
  intros H E; apply H.
  rewrite <- (rev_involutive s), E; reflexivity.
Qed.

(** The result of [trim] has no white space at either end. *)
Lemma trim_bare (e : str) : bare (trim e) /\ bare (rev (trim e)).
Proof.
  unfold trim.
  set (u := trim_start e).
  set (w := trim_start (rev u)).
  split.
  - destruct (trim_start_split (rev u)) as (sp & E & _); fold w in E.
    destruct w as [ | c r] eqn:Ew; [exact I | ].
    assert (Eu : u = rev (c :: r) ++ rev sp).
    { rewrite <- rev_app_distr, <- E, rev_involutive; reflexivity. }
    apply (@bare_prefix (rev (c :: r)) (rev sp)).
    + rewrite <- Eu; apply trim_start_bare.
    + apply rev_not_nil; discriminate.
  - rewrite rev_involutive; apply trim_start_bare.
Qed.

Lemma trim_fix (s : str) : bare s -> bare (rev s) -> trim s = s.
Proof.
  intros H1 H2; unfold trim.
  rewrite (trim_start_id s H1), (trim_start_id _ H2).
  apply rev_involutive.
Qed.

Lemma normalize_cases (s : str) :
  s <> [] ->
  (normalize s = s \/ normalize s = 43%N :: s)
  /\ exists c r, normalize s = c :: r /\ is_operator c = true.
Proof.
  destruct s as [ | c r]; [contradiction | intros _].
  unfold normalize; destruct (is_operator c) eqn:E.
  - split; [left; reflexivity | exists c, r; auto].
  - split; [right; reflexivity | exists 43%N, (c :: r); auto].
Qed.

Lemma operator_not_space (c : N) : is_operator c = true -> is_space c = false.
Proof.
  unfold is_operator; intros H.
  repeat (apply orb_true_iff in H; destruct H as [H | H]);
    apply N.eqb_eq in H; subst c; reflexivity.
Qed.

Lemma trim_normalize (e : str) :
  trim (normalize (trim e)) = normalize (trim e)
  /\ normalize (normalize (trim e)) = normalize (trim e).
Proof.
  destruct (trim_bare e) as [B1 B2].
  destruct (trim e) as [ | c r] eqn:Et; [split; reflexivity | ].
  destruct (@normalize_cases (c :: r)) as ([E | E] & c' & r' & Ec & Hop);
    [discriminate | | ].
  - rewrite E; split; [apply trim_fix; assumption | ].
    rewrite E in Ec; injection Ec as <- <-.
    unfold normalize; rewrite Hop; reflexivity.
  - rewrite E; split; [ | reflexivity].
    apply trim_fix; [reflexivity | ].
    cbn [rev]; change (rev r ++ [c]) with (rev (c :: r)).
    apply bare_app; [exact B2 | apply rev_not_nil; discriminate].
Qed.

(** X13: the expression that [addEntry] records can be replayed: calling
    [addEntry] with the normalized text (trimmed, with its leading sign)
    behaves exactly as the call with the text as typed, so a recorded
    [expr] fed back yields the same delta and is recorded unchanged. *)
Theorem addEntry_replay (now : Z) (expr desc : str) (t : tracker) :
  addEntry now (normalize (trim expr)) desc t = addEntry now expr desc t.
Proof.
  destruct (trim_normalize expr) as [E1 E2].
  unfold addEntry; rewrite E1.
  destruct (trim expr) as [ | c r] eqn:Et; [reflexivity | ].
  destruct (normalize (c :: r)) as [ | c' r'] eqn:En.
  - unfold normalize in En; destruct (is_operator c); discriminate.
  - rewrite E2; reflexivity.
Qed.

(* ------------------------------------------------------------------ *)
(** ** undo after addEntry *)

Lemma eqb_eq (a b : str) : Str.eqb a b = true -> a = b.
Proof.
  unfold Str.eqb; destruct (list_eq_dec N.eq_dec a b); congruence.
Qed.

Lemma assign_id (k : str) (v : jsval) (fs : list (str * jsval)) :
  assoc k fs = Some v -> assign k v fs = fs.
Proof.
  induction fs as [ | [k0 v0] r IH]; cbn [assoc assign]; [discriminate | ].
  destruct (Str.eqb k k0) eqn:E.
  - intros H; injection H as <-; apply eqb_eq in E; subst k0; reflexivity.
  - intros H; rewrite (IH H); reflexivity.
Qed.

Lemma assign_comm (k k' : str) (v w : jsval) (fs : list (str * jsval)) :
  Str.eqb k k' = false -> Str.eqb k' k = false ->
  assoc k fs <> None -> assoc k' fs <> None ->
  assign k v (assign k' w fs) = assign k' w (assign k v fs).
Proof.
  intros Hk Hk'; induction fs as [ | [k0 v0] r IH]; cbn [assoc assign];
    [intros H; contradiction | ].
  destruct (Str.eqb k k0) eqn:E, (Str.eqb k' k0) eqn:E'; intros H1 H2.
  - apply eqb_eq in E, E'; subst; rewrite eqb_refl in Hk; discriminate.
  - cbn [assign]; rewrite E.
    apply eqb_eq in E; subst k0; rewrite Hk'; reflexivity.
  - cbn [assign]; rewrite E'.
    apply eqb_eq in E'; subst k0; rewrite Hk; reflexivity.
  - cbn [assign]; rewrite E, E', (IH H1 H2); reflexivity.
Qed.

(** X14: [undo] right after a successful [addEntry] succeeds, takes the
    new entry away again and sets the balance to the plain sum of the
    earlier deltas; when the balance had been that sum before the entry,
    the state is exactly the one before [addEntry]. *)
Theorem undo_reverts_addEntry (now : Z) (expr desc : str) (t t' : tracker)
  (fs : list (str * jsval)) (b s delta : num) (l : list jsval) :
  state t = VObj fs ->
  assoc k_balance fs = Some (VNum b) ->
  assoc k_history fs = Some (VArr l) ->
  sum_deltas (Fin 0) l = Some s ->
  addEntry now expr desc t = (Returns delta, t') ->
  fst (undo t') = Returns true
  /\ state (snd (undo t')) = VObj (assign k_balance (VNum s) fs)
  /\ (b = s -> state (snd (undo t')) = state t).
Proof.
  intros Hs Hb Hl Hsum Ha.
  destruct (@addEntry_returns_num _ _ _ _ _ _ _ _ Hs Hb Ha)
    as (l0 & Eh0 & _ & Et).
  rewrite Hl in Eh0; injection Eh0 as <-.
  unfold added in Et.
  assert (U : undo t' = (Returns true,
                save (with_state t'
                        (VObj (assign k_balance (VNum s)
                                 (assign k_history (VArr l)
                                    (assign k_history
                                       (VArr (l ++ [entry now
                                          (normalize (trim expr)) desc delta
                                          (round2 (plus b delta))]))
                                       (assign k_balance
                                          (VNum (round2 (plus b delta)))
                                          fs)))))))).
  { eapply undo_nonempty; [ | apply assoc_assign_same | exact Hsum].
    rewrite Et, state_save; reflexivity. }
  assert (E : assign k_balance (VNum s)
                (assign k_history (VArr l)
                   (assign k_history
                      (VArr (l ++ [entry now (normalize (trim expr)) desc
                                     delta (round2 (plus b delta))]))
                      (assign k_balance (VNum (round2 (plus b delta))) fs)))
              = assign k_balance (VNum s) fs).
  { rewrite assign_assign.
    rewrite (@assign_comm k_history k_balance) by
      (reflexivity || (rewrite Hl; discriminate)
       || (rewrite Hb; discriminate)).
    rewrite assign_assign, (assign_id _ _ Hl); reflexivity. }
  rewrite U; cbn [fst snd]; rewrite state_save.
  change (state (with_state ?x ?y)) with y; rewrite E.
  split; [reflexivity | split; [reflexivity | ]].
  intros <-; rewrite (assign_id _ _ Hb), Hs; reflexivity.
Qed.

Lemma undo_reverts_addEntry_witness :
  addEntry 2 (lit "50+25") (lit "Bonus") t1 = (Returns (Fin 75), t2)
  /\ fst (undo t2) = Returns true
  /\ state (snd (undo t2)) = state t1.
Proof.
  assert (A : addEntry 2 (lit "50+25") (lit "Bonus") t1
              = (Returns (Fin 75), t2)) by (vm_compute; reflexivity).
  split; [exact A | ].
  destruct (@undo_reverts_addEntry 2 (lit "50+25") (lit "Bonus") t1 t2
              _ (Fin 100) (Fin 100) (Fin 75)
              [entry 1 (lit "+100") (lit "Initial") (Fin 100) (Fin 100)]
              eq_refl eq_refl eq_refl eq_refl A) as (H1 & _ & H3).
  split; [exact H1 | apply H3; reflexivity].
Defined.

(* ------------------------------------------------------------------ *)
(** ** Undoing a whole session *)

Lemma sum_deltas_total (l : list jsval) (acc : num) :
  Forall has_delta l -> exists s, sum_deltas acc l = Some s.
Proof.
  intros H; revert acc; induction H as [ | h r [d Hd] _ IH]; intros acc.
  - exists acc; reflexivity.
  - cbn [sum_deltas]; rewrite Hd; apply IH.
Qed.

Lemma addEntry_shape (now : Z) (expr desc : str) (t t' : tracker)
  (v x : jsval) (b delta : num) (l : list jsval) :
  state t = ledger_obj v b x l ->
  addEntry now expr desc t = (Returns delta, t') ->
  exists h, has_delta h
    /\ state t' = ledger_obj v (round2 (plus b delta)) x (l ++ [h]).
Proof.
  intros Hs Ha.
  destruct (@addEntry_returns_num now expr desc t t' delta b _ Hs eq_refl Ha)
    as (l0 & Eh0 & _ & Et).
  injection Eh0 as <-.
  exists (entry now (normalize (trim expr)) desc delta
            (round2 (plus b delta))).
  split; [exists delta; reflexivity | ].
  rewrite Et, state_save; reflexivity.
Qed.

Lemma addEntries_shape (calls : list (Z * str * str)) :
  forall (t t' : tracker) (v x : jsval) (b : num) (l : list jsval)
         (ds : list num),
    state t = ledger_obj v b x l ->
    addEntries calls t = Some (ds, t') ->
    exists es b',
      state t' = ledger_obj v b' x (l ++ es)
      /\ length es = length calls
      /\ Forall has_delta es
      /\ (es = [] -> b' = b).
Proof.
  induction calls as [ | [[now expr] desc] rest IH];
    intros t t' v x b l ds Hs H.
  - injection H as <- <-; exists [], b.
    rewrite app_nil_r; repeat split; auto.
  - cbn [addEntries] in H.
    destruct (addEntry now expr desc t) as [[d | e | ] t1] eqn:Ea;
      try discriminate.
    destruct (addEntries rest t1) as [[ds1 t2] | ] eqn:Er; try discriminate.
    injection H as <- <-.
    destruct (addEntry_shape _ _ _ _ Hs Ea) as (h & Hh & Hs1).
    destruct (IH _ _ _ _ _ _ _ Hs1 Er) as (es & b' & Hs2 & Hlen & Hd & _).
    exists (h :: es), b'; repeat split.
    + rewrite Hs2, <- app_assoc; reflexivity.
    + cbn [length]; rewrite Hlen; reflexivity.
    + constructor; assumption.
    + discriminate.
Qed.

Lemma undo_shape (t : tracker) (v x h : jsval) (b s : num)
  (l : list jsval) :
  state t = ledger_obj v b x (l ++ [h]) ->
  sum_deltas (Fin 0) l = Some s ->
  exists t', undo t = (Returns true, t') /\ state t' = ledger_obj v s x l.
Proof.
  intros Hs Hsum.
  eexists; split.
  - eapply undo_nonempty; [exact Hs | reflexivity | exact Hsum].
  - rewrite state_save; reflexivity.
Qed.

Lemma undos_shape (es : list jsval) :
  forall (t : tracker) (v x : jsval) (b : num) (l : list jsval),
    state t = ledger_obj v b x (l ++ es) ->
    Forall has_delta l -> Forall has_delta es -> es <> [] ->
    exists t' s,
      undos (length es) t = Some t'
      /\ state t' = ledger_obj v s x l
      /\ sum_deltas (Fin 0) l = Some s.
Proof.
  induction es as [ | h es' IH] using rev_ind;
    intros t v x b l Hs Hl Hes Hne; [contradiction | ].
  apply Forall_app in Hes; destruct Hes as [Hes' _].
  destruct (@sum_deltas_total (l ++ es') (Fin 0)) as (s1 & Hs1);
    [apply Forall_app; split; assumption | ].
  rewrite app_assoc in Hs.
  destruct (@undo_shape _ _ _ _ _ _ _ Hs Hs1) as (t1 & Hu & Ht1).
  rewrite length_app, Nat.add_comm; cbn [length Nat.add undos]; rewrite Hu.
  destruct es' as [ | h' r'].
  - rewrite app_nil_r in *; exists t1, s1; auto.
  - apply (IH t1 v x s1 l Ht1 Hl Hes'); discriminate.
Qed.

(** X15: after any sequence of successful [addEntry] calls on a tracker
    in the default state, as many calls of [undo] all return true and
    bring back exactly the default state (empty history, balance 0);
    one more [undo] returns false and changes nothing. *)
Theorem undo_all_restores_default (today : str) (t0 t' : tracker)
  (calls : list (Z * str * str)) (ds : list num) :
  state t0 = default_state today ->
  addEntries calls t0 = Some (ds, t') ->
  exists t'',
    undos (length calls) t' = Some t''
    /\ state t'' = default_state today
    /\ undo t'' = (Returns false, t'').
Proof.
  intros H0 Ha.
  assert (Hlast : forall u, state u = default_state today ->
                            undo u = (Returns false, u)).
  { intros u Hu; eapply undo_empty; [exact Hu | reflexivity]. }
  destruct (@addEntries_shape calls t0 t' (VNum (Fin 1)) (VStr today)
              (Fin 0) [] ds H0 Ha) as (es & b' & Hs & Hlen & Hd & Hb).
  rewrite <- Hlen.
  destruct es as [ | h r].
  - exists t'; cbn [length undos].
    assert (E : state t' = default_state today)
      by (rewrite Hs, (Hb eq_refl); reflexivity).
    auto.
  - destruct (@undos_shape (h :: r) t' _ _ _ [] Hs (Forall_nil _) Hd)
      as (t'' & s & Hu & Hst & Hsum); [discriminate | ].
    injection Hsum as <-.
    exists t''; auto.
Qed.

Lemma undo_all_restores_default_witness :
  state fresh = default_state today
  /\ addEntries [(1%Z, lit "100", lit "Initial");
                 (2%Z, lit "50+25", lit "Bonus")] fresh
     = Some ([Fin 100; Fin 75], t2)
  /\ exists t'',
       undos 2 t2 = Some t''
       /\ state t'' = default_state today
       /\ undo t'' = (Returns false, t'').
Proof.
  assert (A : addEntries [(1%Z, lit "100", lit "Initial");
                          (2%Z, lit "50+25", lit "Bonus")] fresh
              = Some ([Fin 100; Fin 75], t2)) by (vm_compute; reflexivity).
  split; [reflexivity | split; [exact A | ]].
  exact (@undo_all_restores_default today fresh t2 _ _ eq_refl A).
Defined.

(* ------------------------------------------------------------------ *)
(** ** The "equals" handler *)






(* ------------------------------------------------------------------ *)
(** ** addEntry on arithmetic texts *)

Lemma addEntry_success (now : Z) (expr desc : str) (t : tracker)
  (fs : list (str * jsval)) (b delta : num) (l : list jsval) :
  state t = VObj fs ->
  assoc k_balance fs = Some (VNum b) ->
  assoc k_history fs = Some (VArr l) ->
  trim expr <> [] ->
  evalMath (normalize (trim expr)) = Returns delta ->
  addEntry now expr desc t
  = (Returns delta,
     save (with_state t
             (added now (normalize (trim expr)) desc delta (plus b delta)
                l fs))).
Proof.
  intros Hs Hb Hl Hne He; unfold addEntry.
  destruct (trim expr) as [ | c r]; [contradiction | ].
  rewrite He, Hs; unfold get at 1; rewrite Hb; cbn [balance_plus].
  rewrite get_history_after_balance; unfold get at 1; rewrite Hl.
  reflexivity.
Qed.

(** A sign in front of a derived sequence: the sequence is still derived,
    at the same level, with the same value. *)
Lemma derives_plus (lvl : level) (ts : list token) (e : expr) :
  Derives lvl ts e ->
  exists e', Derives lvl (TPlus :: ts) e' /\ eval e' = eval e.
Proof.
  induction 1 as [ v | ts e H _ | ts e H _ | ts e H _
                 | ts e _ (e' & D & E)
                 | ts1 e1 ts2 e2 _ (e' & D & E) H2 _
                 | ts1 e1 ts2 e2 _ (e' & D & E) H2 _
                 | ts e _ (e' & D & E)
                 | ts1 e1 ts2 e2 _ (e' & D & E) H2 _
                 | ts1 e1 ts2 e2 _ (e' & D & E) H2 _ ].
  - exists (EPos (ENum v)); split; [apply D_pos, D_num | reflexivity].
  - exists (EPos e); split; [apply D_pos, D_paren, H | reflexivity].
  - exists (EPos (EPos e)); split; [apply D_pos, D_pos, H | reflexivity].
  - exists (EPos (ENeg e)); split; [apply D_pos, D_neg, H | reflexivity].
  - exists e'; split; [apply D_unary, D | exact E].
  - exists (EMul e' e2); split.
    + apply (@D_mul (TPlus :: ts1)); assumption.
    + cbn [eval]; rewrite E; reflexivity.
  - exists (EDiv e' e2); split.
    + apply (@D_div (TPlus :: ts1)); assumption.
    + cbn [eval]; rewrite E; reflexivity.
  - exists e'; split; [apply D_product, D | exact E].
  - exists (EAdd e' e2); split.
    + apply (@D_add (TPlus :: ts1)); assumption.
    + cbn [eval]; rewrite E; reflexivity.
  - exists (ESub e' e2); split.
    + apply (@D_sub (TPlus :: ts1)); assumption.
    + cbn [eval]; rewrite E; reflexivity.
Qed.

(** The text that [addEntry] evaluates, with its sign in front, has the
    value of the text as typed. *)
Lemma evalMath_normalize (s : str) (ts : list token) (e : expr) :
  Spells true s ts -> Derives LSum ts e ->
  evalMath (normalize s) = Returns (eval e).
Proof.
  intros Hs Hd.
  destruct s as [ | c r]; [exact (evalMath_eval Hs Hd) | ].
  unfold normalize; destruct (is_operator c) eqn:Eo;
    [exact (evalMath_eval Hs Hd) | ].
  destruct (derives_plus Hd) as (e' & D & E).
  rewrite <- E; apply (@evalMath_eval _ (TPlus :: ts)); [ | exact D].
  apply S_plus; [ | exact Hs].
  unfold is_operator in Eo; cbn [head_is].
  repeat (apply orb_false_iff in Eo; destruct Eo as [Eo ?]).
  rewrite N.eqb_sym; exact Eo.
Qed.

(** X17: [addEntry] with an arithmetic text (after trimming: numerals,
    + - * /, parentheses), with or without a leading sign, succeeds on a
    ledger state: the delta it returns and records is the value of the
    text in the arithmetic of JavaScript numbers (binary64), which the
    sign added in front of an unsigned text does not change; it is the
    exact value where nothing needs rounding.  The balance becomes the
    prior balance plus that delta, rounded by [Math.round(x * 100) / 100]. *)
Theorem addEntry_arithmetic (now : Z) (expr desc : str) (t : tracker)
  (fs : list (str * jsval)) (b : num) (l : list jsval)
  (ts : list token) (e : Parser.expr) :
  state t = VObj fs ->
  assoc k_balance fs = Some (VNum b) ->
  assoc k_history fs = Some (VArr l) ->
  Spells true (trim expr) ts -> Derives LSum ts e ->
  fst (addEntry now expr desc t) = Returns (eval e)
  /\ (forall q, denote e = Some q -> unrounded e = true ->
                num_is (eval e) q)
  /\ balance_of (snd (addEntry now expr desc t))
     = VNum (round2 (plus b (eval e)))
  /\ history_of (snd (addEntry now expr desc t))
     = VArr (l ++ [entry now (normalize (trim expr)) desc (eval e)
                     (round2 (plus b (eval e)))]).
Proof.
  intros Hs Hb Hl Hsp Hd.
  assert (Hne : trim expr <> []).
  { intros E; rewrite E in Hsp.
    apply spells_nil in Hsp; subst ts.
    destruct (derives_shape Hd) as (Hn & _); contradiction. }
  rewrite (@addEntry_success now expr desc t fs b (eval e) l Hs Hb Hl Hne
             (evalMath_normalize Hsp Hd)); cbn [fst snd].
  unfold balance_of, history_of; rewrite state_save.
  change (state (with_state ?x ?y)) with y.
  rewrite get_added_balance, get_added_history.
  split; [reflexivity | ].
  split; [intros q; apply eval_unrounded | split; reflexivity].
Qed.

Lemma addEntry_arithmetic_witness :
  Spells true (trim (lit " .1+.2 "))
    [TNum (decimal_value [] [1%N]); TPlus; TNum (decimal_value [] [2%N])]
  /\ fst (addEntry 3 (lit " .1+.2 ") (lit "x") t1)
     = Returns (Fin (1351079888211149 # 4503599627370496))
  /\ balance_of (snd (addEntry 3 (lit " .1+.2 ") (lit "x") t1))
     = VNum (number (Fin (1003 # 10))).
Proof.
  assert (S : Spells true (trim (lit " .1+.2 "))
                [TNum (decimal_value [] [1%N]); TPlus;
                 TNum (decimal_value [] [2%N])]).
  { apply (@S_frac true [1%N]);
      [split; [repeat constructor | discriminate] | reflexivity | ].
    apply S_plus; [reflexivity | ].
    apply (@S_frac true [2%N] []);
      [split; [repeat constructor | discriminate] | exact I | ].
    apply S_end. }
  assert (D : Derives LSum
                [TNum (decimal_value [] [1%N]); TPlus;
                 TNum (decimal_value [] [2%N])]
                (EAdd (ENum (decimal_value [] [1%N]))
                      (ENum (decimal_value [] [2%N])))).
  { apply (@D_add [TNum (decimal_value [] [1%N])] _
                  [TNum (decimal_value [] [2%N])]).
    - apply D_product, D_unary, D_num.
    - apply D_unary, D_num. }
  split; [exact S | ].
  destruct (@addEntry_arithmetic 3 (lit " .1+.2 ") (lit "x") t1 _ (Fin 100)
              [entry 1 (lit "+100") (lit "Initial") (Fin 100) (Fin 100)]
              _ _ eq_refl eq_refl eq_refl S D) as (H1 & _ & H2 & _).
  split.
  - etransitivity; [exact H1 | vm_compute; reflexivity].
  - etransitivity; [exact H2 | vm_compute; reflexivity].
Defined.

